(** * Huffman coding: HuffmanAlgorithm.py and HuffmanAlgorithm2.py

    A shallow embedding of the two Python modules and of the part of
    CPython's [heapq] they call, followed by the properties of the
    design document that can be settled on it.

    Modelling conventions.
    - A Python [str] is a [list ascii]; a one-character string (a symbol) is
      an [ascii].
    - A Python [int] is a [Z].
    - A [dict] used as a mapping is a [gmap]; the [Counter] whose iteration
      order feeds the heap is an association list in insertion order.
    - A Python [list] used as an array is a [list] read with [!!] and
      written with a bounds-checked store.
    - Exceptions are values of [PyError]; a computation is a [Result].
    - [dict] objects that are shared between calls live in a [store] and are
      passed by location.

    Layout: the embedding of the code; the vocabulary of the properties
    (heap order, trees, prefix codes); the lemmas; the claims C1 to C10. *)

From Stdlib Require Import ZArith Ascii String List Lia Permutation.
From stdpp Require Import base option list gmap strings sorting.

Local Open Scope Z_scope.
Local Open Scope nat_scope.

(** ** Python values and exceptions *)

Abbreviation str := (list ascii).

Definition lit (s : string) : str := list_ascii_of_string s.

(** The exceptions the embedded code can raise, and [EmptyInputError], the
    class the design document names for an empty frequency table. *)
Inductive PyError : Type :=
  | IndexError
  | KeyError
  | AttributeError
  | TypeError
  | EmptyInputError.

(** Outcome of a call: a value, a raised exception, or [OutOfFuel] when a
    loop of the model was not given enough iterations. *)
Inductive Result (A : Type) : Type :=
  | Ok (a : A)
  | Raise (e : PyError)
  | OutOfFuel.
Arguments Ok {A} a.
Arguments Raise {A} e.
Arguments OutOfFuel {A}.

#[global] Instance Result_ret : MRet Result := λ A a, Ok a.
#[global] Instance Result_bind : MBind Result := λ A B f m,
  match m with
  | Ok a => f a
  | Raise e => Raise e
  | OutOfFuel => OutOfFuel
  end.

Definition raises {A} (m : Result A) : Prop := ∃ e, m = Raise e.

(** [l[i]]: reading past the end raises [IndexError]. *)
Definition getitem {A} (l : list A) (i : nat) : Result A :=
  match l !! i with
  | Some x => Ok x
  | None => Raise IndexError
  end.

(** [l[i] = x]: writing past the end raises [IndexError]. *)
Definition setitem {A} (l : list A) (i : nat) (x : A) : Result (list A) :=
  if i <? length l then Ok (<[i:=x]> l) else Raise IndexError.

(** [l.pop()]: removes and returns the last element. *)
Definition list_pop {A} (l : list A) : Result (A * list A) :=
  match last l with
  | Some x => Ok (x, take (length l - 1) l)
  | None => Raise IndexError
  end.

(** ** [heapq] (CPython, Lib/heapq.py)

    The three entry points used by [build_huffman_tree] and the two sift
    procedures behind them, over an element type with a [<] operator. *)
Module heapq.
Section heapq.
Context {A : Type} (lt : A → A → bool).

(** The [while pos > startpos] loop of [_siftdown]; returns the list and
    the position where [newitem] is to be stored. *)
Fixpoint siftdown_loop (fuel : nat) (heap : list A) (startpos pos : nat)
    (newitem : A) : Result (list A * nat) :=
  if startpos <? pos then
    match fuel with
    | 0 => OutOfFuel
    | S fuel' =>
        let parentpos := (pos - 1) / 2 in
        parent ← getitem heap parentpos;
        if lt newitem parent then
          heap1 ← setitem heap pos parent;
          siftdown_loop fuel' heap1 startpos parentpos newitem
        else Ok (heap, pos)
    end
  else Ok (heap, pos).

Definition _siftdown (heap : list A) (startpos pos : nat) : Result (list A) :=
  newitem ← getitem heap pos;
  '(heap1, pos1) ← siftdown_loop pos heap startpos pos newitem;
  setitem heap1 pos1 newitem.

(** The [while childpos < endpos] loop of [_siftup]; [childpos] is
    [2*pos + 1] at the head of every iteration. *)
Fixpoint siftup_loop (fuel : nat) (heap : list A) (endpos pos : nat)
    : Result (list A * nat) :=
  let childpos := 2 * pos + 1 in
  if childpos <? endpos then
    match fuel with
    | 0 => OutOfFuel
    | S fuel' =>
        let rightpos := childpos + 1 in
        childpos1 ←
          (if rightpos <? endpos then
             c ← getitem heap childpos;
             r ← getitem heap rightpos;
             Ok (if negb (lt c r) then rightpos else childpos)
           else Ok childpos);
        x ← getitem heap childpos1;
        heap1 ← setitem heap pos x;
        siftup_loop fuel' heap1 endpos childpos1
    end
  else Ok (heap, pos).

Definition _siftup (heap : list A) (pos : nat) : Result (list A) :=
  let endpos := length heap in
  let startpos := pos in
  newitem ← getitem heap pos;
  '(heap1, pos1) ← siftup_loop endpos heap endpos pos;
  heap2 ← setitem heap1 pos1 newitem;
  _siftdown heap2 startpos pos1.

Definition heappush (heap : list A) (item : A) : Result (list A) :=
  let heap1 := heap ++ [item] in
  _siftdown heap1 0 (length heap1 - 1).

Definition heappop (heap : list A) : Result (A * list A) :=
  '(lastelt, heap1) ← list_pop heap;
  match heap1 with
  | [] => Ok (lastelt, heap1)
  | _ :: _ =>
      returnitem ← getitem heap1 0;
      heap2 ← setitem heap1 0 lastelt;
      heap3 ← _siftup heap2 0;
      Ok (returnitem, heap3)
  end.

(** [for i in reversed(range(n)): _siftup(x, i)] *)
Fixpoint heapify_from (n : nat) (x : list A) : Result (list A) :=
  match n with
  | 0 => Ok x
  | S i => x1 ← _siftup x i; heapify_from i x1
  end.

Definition heapify (x : list A) : Result (list A) :=
  heapify_from (length x / 2) x.
End heapq.
End heapq.

(** ** class Node (the same in both modules) *)

#[warnings="-register-all"]
Inductive Node : Type :=
  mkNode (char : option ascii) (freq : Z) (left right : option Node).

Definition char (n : Node) : option ascii := let 'mkNode c _ _ _ := n in c.
Definition freq (n : Node) : Z := let 'mkNode _ f _ _ := n in f.
Definition left (n : Node) : option Node := let 'mkNode _ _ l _ := n in l.
Definition right (n : Node) : option Node := let 'mkNode _ _ _ r := n in r.

(** [Node(char, freq)]: both children start as [None]. *)
Definition Node_init (c : option ascii) (f : Z) : Node := mkNode c f None None.

(** [Node.__lt__] *)
Definition Node_lt (self other : Node) : bool := (freq self <? freq other)%Z.

(** ** Dictionaries and the object store *)

(** A code table: keys are whatever [root.char] holds (a symbol or [None]). *)
Abbreviation dict := (gmap (option ascii) str).

Abbreviation loc := nat.
Abbreviation store := (list dict).

(** [{}]: a new empty dict object. *)
Definition alloc_dict (σ : store) : loc * store := (length σ, σ ++ [∅]).

(** [codes[k] = v] on the dict object at [l]. *)
Definition dict_setitem (l : loc) (k : option ascii) (v : str) (σ : store) : store :=
  alter (λ d : dict, <[k:=v]> d) l σ.

(** [Counter]: counts in first-occurrence order. *)
Fixpoint counter_incr (c : ascii) (tbl : list (ascii * Z)) : list (ascii * Z) :=
  match tbl with
  | [] => [(c, 1%Z)]
  | (k, v) :: rest =>
      if decide (k = c) then (k, (v + 1)%Z) :: rest
      else (k, v) :: counter_incr c rest
  end.

Definition Counter (text : str) : list (ascii * Z) :=
  fold_left (λ tbl c, counter_incr c tbl) text [].

(** ** HuffmanAlgorithm.py *)
Module HuffmanAlgorithm.

Definition build_frequency_table (text : str) : list (ascii * Z) :=
  Counter text.

(** The [while len(heap) > 1] loop of [build_huffman_tree]. *)
Fixpoint merge_loop (fuel : nat) (heap : list Node) : Result (list Node) :=
  if 1 <? length heap then
    match fuel with
    | 0 => OutOfFuel
    | S fuel' =>
        '(node1, heap1) ← heapq.heappop Node_lt heap;
        '(node2, heap2) ← heapq.heappop Node_lt heap1;
        let merged := Node_init None (freq node1 + freq node2) in
        let merged := mkNode (char merged) (freq merged) (Some node1) (right merged) in
        let merged := mkNode (char merged) (freq merged) (left merged) (Some node2) in
        heap3 ← heapq.heappush Node_lt heap2 merged;
        merge_loop fuel' heap3
    end
  else Ok heap.

Definition build_huffman_tree (freq_table : list (ascii * Z)) : Result Node :=
  let heap := map (λ '(c, f), Node_init (Some c) f) freq_table in
  heap1 ← heapq.heapify Node_lt heap;
  heap2 ← merge_loop (length heap1) heap1;
  getitem heap2 0.

(** [generate_codes(root, current_code, codes)]; [codes] is [None] or a
    reference to a dict, which the call mutates in place. The function is
    applied to [root.left] and [root.right] as they are, so a missing child
    raises [AttributeError] at [root.left] of [None]. *)
Fixpoint generate_codes (root : Node) (current_code : str) (codes : option loc)
    (σ : store) : store * Result loc :=
  let '(codes, σ) :=
    match codes with
    | None => alloc_dict σ
    | Some l => (l, σ)
    end in
  match root with
  | mkNode root_char _ None None =>
      if decide (current_code = lit "") then
        (dict_setitem codes root_char (lit "0") σ, Ok codes)
      else
        (dict_setitem codes root_char current_code σ, Ok codes)
  | mkNode _ _ root_left root_right =>
      match root_left with
      | None => (σ, Raise AttributeError)
      | Some l =>
          match generate_codes l (current_code ++ lit "0") (Some codes) σ with
          | (σ1, Ok _) =>
              match root_right with
              | None => (σ1, Raise AttributeError)
              | Some r =>
                  match generate_codes r (current_code ++ lit "1") (Some codes) σ1 with
                  | (σ2, Ok _) => (σ2, Ok codes)
                  | (σ2, Raise e) => (σ2, Raise e)
                  | (σ2, OutOfFuel) => (σ2, OutOfFuel)
                  end
              end
          | (σ1, Raise e) => (σ1, Raise e)
          | (σ1, OutOfFuel) => (σ1, OutOfFuel)
          end
      end
  end.

(** The dict object created once, when [def generate_codes(root,
    current_code="", codes={})] is executed: location 0 of the store. *)
Definition default_codes : loc := 0.
Definition initial_store : store := [∅].

(** [generate_codes(root)] *)
Definition generate_codes_call (root : Node) (σ : store) : store * Result loc :=
  generate_codes root (lit "") (Some default_codes) σ.

Fixpoint encode_text (text : str) (codes : dict) : Result str :=
  match text with
  | [] => Ok []
  | char :: text' =>
      match codes !! Some char with
      | None => Raise KeyError
      | Some code => rest ← encode_text text' codes; Ok (code ++ rest)
      end
  end.

(** The [for bit in encoded_text] loop of [decode_text]. *)
Fixpoint decode_loop (root : Node) (encoded_text : str) (result : str)
    (current : Node) : Result str :=
  match encoded_text with
  | [] => Ok result
  | bit :: rest =>
      let current1 :=
        if decide (bit = "0"%char) then left current else right current in
      match current1 with
      | None => Raise AttributeError
      | Some current1 =>
          match char current1 with
          | Some c => decode_loop root rest (result ++ [c]) root
          | None => decode_loop root rest result current1
          end
      end
  end.

Definition decode_text (encoded_text : str) (root : Node) : Result str :=
  match left root, right root with
  | None, None =>
      match char root with
      | Some c => Ok (replicate (length encoded_text) c)
      | None => Raise TypeError
      end
  | _, _ => decode_loop root encoded_text (lit "") root
  end.

End HuffmanAlgorithm.

(** ** HuffmanAlgorithm2.py (the five functions; the file reader and the
    timing report around them are not modelled) *)
Module HuffmanAlgorithm2.

Definition build_frequency_table (text : str) : list (ascii * Z) :=
  Counter text.

Fixpoint merge_loop (fuel : nat) (heap : list Node) : Result (list Node) :=
  if 1 <? length heap then
    match fuel with
    | 0 => OutOfFuel
    | S fuel' =>
        '(node1, heap1) ← heapq.heappop Node_lt heap;
        '(node2, heap2) ← heapq.heappop Node_lt heap1;
        let merged := Node_init None (freq node1 + freq node2) in
        let merged := mkNode (char merged) (freq merged) (Some node1) (right merged) in
        let merged := mkNode (char merged) (freq merged) (left merged) (Some node2) in
        heap3 ← heapq.heappush Node_lt heap2 merged;
        merge_loop fuel' heap3
    end
  else Ok heap.

Definition build_huffman_tree (freq_table : list (ascii * Z)) : Result Node :=
  let heap := map (λ '(c, f), Node_init (Some c) f) freq_table in
  heap1 ← heapq.heapify Node_lt heap;
  heap2 ← merge_loop (length heap1) heap1;
  getitem heap2 0.

Fixpoint generate_codes (root : Node) (current_code : str) (codes : option loc)
    (σ : store) : store * Result loc :=
  let '(codes, σ) :=
    match codes with
    | None => alloc_dict σ
    | Some l => (l, σ)
    end in
  match root with
  | mkNode root_char _ None None =>
      if decide (current_code = lit "") then
        (dict_setitem codes root_char (lit "0") σ, Ok codes)
      else
        (dict_setitem codes root_char current_code σ, Ok codes)
  | mkNode _ _ root_left root_right =>
      match root_left with
      | None => (σ, Raise AttributeError)
      | Some l =>
          match generate_codes l (current_code ++ lit "0") (Some codes) σ with
          | (σ1, Ok _) =>
              match root_right with
              | None => (σ1, Raise AttributeError)
              | Some r =>
                  match generate_codes r (current_code ++ lit "1") (Some codes) σ1 with
                  | (σ2, Ok _) => (σ2, Ok codes)
                  | (σ2, Raise e) => (σ2, Raise e)
                  | (σ2, OutOfFuel) => (σ2, OutOfFuel)
                  end
              end
          | (σ1, Raise e) => (σ1, Raise e)
          | (σ1, OutOfFuel) => (σ1, OutOfFuel)
          end
      end
  end.

(** [def generate_codes(root, current_code="", codes=None)]: no dict object
    exists before the first call. *)
Definition initial_store : store := [].

(** [generate_codes(root)] *)
Definition generate_codes_call (root : Node) (σ : store) : store * Result loc :=
  generate_codes root (lit "") None σ.

Fixpoint encode_text (text : str) (codes : dict) : Result str :=
  match text with
  | [] => Ok []
  | char :: text' =>
      match codes !! Some char with
      | None => Raise KeyError
      | Some code => rest ← encode_text text' codes; Ok (code ++ rest)
      end
  end.

Fixpoint decode_loop (root : Node) (encoded_text : str) (result : str)
    (current : Node) : Result str :=
  match encoded_text with
  | [] => Ok result
  | bit :: rest =>
      match (if decide (bit = "0"%char) then left current else right current) with
      | None => Raise AttributeError
      | Some current1 =>
          match char current1 with
          | Some c => decode_loop root rest (result ++ [c]) root
          | None => decode_loop root rest result current1
          end
      end
  end.

Definition decode_text (encoded_text : str) (root : Node) : Result str :=
  match left root, right root with
  | None, None =>
      match char root with
      | Some c => Ok (replicate (length encoded_text) c)
      | None => Raise TypeError
      end
  | _, _ => decode_loop root encoded_text (lit "") root
  end.

End HuffmanAlgorithm2.

(** * The vocabulary of the properties *)

(** ** The heap order of [heapq], for elements compared by an integer key *)
Module heapq_inv.
Section heapq_inv.
Context {A : Type} (key : A → Z).

Definition child (i c : nat) : Prop := c = 2 * i + 1 ∨ c = 2 * i + 2.

(** Every parent at or after [s] is no larger than its children. *)
Definition heap_edges (s : nat) (h : list A) : Prop :=
  ∀ i c a b, s ≤ i → child i c →
    h !! i = Some a → h !! c = Some b → (key a ≤ key b)%Z.

Definition is_heap (h : list A) : Prop := heap_edges 0 h.

(** Positions below [s] in the implicit tree. *)
Inductive desc (s : nat) : nat → Prop :=
  | desc_refl : desc s s
  | desc_child p c : desc s p → child p c → desc s c.

(** The state of a sift with the hole at [pos]: the entry at [pos] is not
    constrained, every other edge is in order, and the parent of the hole is
    no larger than the children of the hole. *)
Definition edges_except (s : nat) (h : list A) (pos : nat) : Prop :=
  ∀ i c a b, s ≤ i → child i c → i ≠ pos → c ≠ pos →
    h !! i = Some a → h !! c = Some b → (key a ≤ key b)%Z.

Definition grand_ok (s : nat) (h : list A) (pos : nat) : Prop :=
  ∀ c a b, s < pos → child pos c →
    h !! ((pos - 1) / 2) = Some a → h !! c = Some b → (key a ≤ key b)%Z.

Definition sift_inv (s : nat) (h : list A) (pos : nat) : Prop :=
  pos < length h ∧ desc s pos ∧ edges_except s h pos ∧ grand_ok s h pos.

End heapq_inv.
End heapq_inv.

(** ** The trees [build_huffman_tree] produces

    [Node] allows shapes the builder never creates (a symbol on a node with
    children, a single child). [tree] is the tagged variant of the design
    document; [node_of] gives the [Node] object of a tree. *)
Inductive tree : Type :=
  | Leaf (c : ascii) (f : Z)
  | Inner (f : Z) (l r : tree).

Fixpoint node_of (t : tree) : Node :=
  match t with
  | Leaf c f => mkNode (Some c) f None None
  | Inner f l r => mkNode None f (Some (node_of l)) (Some (node_of r))
  end.

Definition weight (t : tree) : Z :=
  match t with
  | Leaf _ f => f
  | Inner f _ _ => f
  end.

Fixpoint leaves (t : tree) : list ascii :=
  match t with
  | Leaf c _ => [c]
  | Inner _ l r => leaves l ++ leaves r
  end.

(** Each leaf symbol with the bits of the walk from the root to it. *)
Fixpoint paths (t : tree) : list (ascii * str) :=
  match t with
  | Leaf c _ => [(c, [])]
  | Inner _ l r =>
      (prod_map id (cons "0"%char) <$> paths l) ++
      (prod_map id (cons "1"%char) <$> paths r)
  end.

Definition is_inner (t : tree) : Prop :=
  match t with
  | Leaf _ _ => False
  | Inner _ _ _ => True
  end.

Definition leaf_of (e : ascii * Z) : tree := Leaf e.1 e.2.

(** The greedy merging, independently of how the queue is laid out: at each
    step two trees of least weight are removed, the first one becoming the
    left child, and their parent is put back. *)
Inductive huffman_run : list tree → tree → Prop :=
  | run_done t : huffman_run [t] t
  | run_merge ts t1 t2 rest ts' t :
      ts ≡ₚ t1 :: t2 :: rest →
      (∀ u, u ∈ t2 :: rest → (weight t1 ≤ weight u)%Z) →
      (∀ u, u ∈ rest → (weight t2 ≤ weight u)%Z) →
      ts' ≡ₚ Inner (weight t1 + weight t2) t1 t2 :: rest →
      huffman_run ts' t →
      huffman_run ts t.

(** What [generate_codes] leaves in the dict it is given. *)
Fixpoint fill_codes (t : tree) (current_code : str) (d : dict) : dict :=
  match t with
  | Leaf c _ =>
      <[Some c := if decide (current_code = []) then lit "0" else current_code]> d
  | Inner _ l r =>
      fill_codes r (current_code ++ lit "1") (fill_codes l (current_code ++ lit "0") d)
  end.

(** Sum over a frequency table of [count * g symbol]. *)
Definition weighted_sum (g : ascii → Z) (tbl : list (ascii * Z)) : Z :=
  foldr (λ e acc, (e.2 * g e.1 + acc)%Z) 0%Z tbl.

Definition total (g : ascii → Z) (text : str) : Z :=
  foldr (λ c acc, (g c + acc)%Z) 0%Z text.

(** A non-['0'] character read as ['1']. *)
Definition as_bit (b : ascii) : ascii :=
  if decide (b = "0"%char) then "0"%char else "1"%char.

(** ** Weights and code words *)
Module optimal.

Abbreviation word := (list bool).

Definition Zsum (l : list Z) : Z := foldr Z.add 0%Z l.

(** An assignment pairs each weight with a code word. *)
Definition acost (A : list (Z * word)) : Z :=
  Zsum ((λ e, e.1 * Z.of_nat (length e.2))%Z <$> A).

Definition total_len (A : list (Z * word)) : nat :=
  sum_list (length ∘ snd <$> A).

Definition incomp (c c' : word) : Prop :=
  ¬ c `prefix_of` c' ∧ ¬ c' `prefix_of` c.

Fixpoint prefix_free (cs : list word) : Prop :=
  match cs with
  | [] => True
  | c :: cs' => Forall (incomp c) cs' ∧ prefix_free cs'
  end.

(** The sum of the weights created by merging two least weights until one
    weight is left. *)
Inductive hcost : list Z → Z → Prop :=
  | hcost_one w : hcost [w] 0
  | hcost_merge ws a b rest ws' k :
      ws ≡ₚ a :: b :: rest →
      (∀ u, u ∈ b :: rest → (a ≤ u)%Z) →
      (∀ u, u ∈ rest → (b ≤ u)%Z) →
      ws' ≡ₚ (a + b)%Z :: rest →
      hcost ws' k →
      hcost ws (k + a + b).

End optimal.

(** ** Trees and code tables as prefix codes *)
Module prefix_code.
Import optimal.

(** Every inner node carries the sum of the weights of its children. *)
Fixpoint consistent (t : tree) : Prop :=
  match t with
  | Leaf _ _ => True
  | Inner f l r => f = (weight l + weight r)%Z ∧ consistent l ∧ consistent r
  end.

(** Weighted path length: each leaf weight times the depth of the leaf. *)
Fixpoint cost (t : tree) : Z :=
  match t with
  | Leaf _ _ => 0
  | Inner _ l r => cost l + cost r + weight l + weight r
  end.

(** The leaves with their weights. *)
Fixpoint entries (t : tree) : list (ascii * Z) :=
  match t with
  | Leaf c f => [(c, f)]
  | Inner _ l r => entries l ++ entries r
  end.

Definition to_bit (b : ascii) : bool := bool_decide (b = "1"%char).

Definition binary (code : str) : Prop :=
  Forall (λ b, b = "0"%char ∨ b = "1"%char) code.

(** A code table usable for [text]: every symbol of the text has a
    non-empty code of ['0'] and ['1'], and the code of one symbol is never a
    prefix of the code of another. *)
Definition valid_prefix_code (text : str) (codes : dict) : Prop :=
  (∀ c, c ∈ text → ∃ code, codes !! Some c = Some code ∧ code ≠ [] ∧ binary code)
  ∧ (∀ c1 c2 code1 code2, c1 ∈ text → c2 ∈ text → c1 ≠ c2 →
       codes !! Some c1 = Some code1 → codes !! Some c2 = Some code2 →
       ¬ code1 `prefix_of` code2).

(** The assignment a code table gives to a frequency table. *)
Definition assignment (codes : dict) (tbl : list (ascii * Z)) : list (Z * word) :=
  (λ e, (e.2, to_bit <$> default [] (codes !! Some e.1))) <$> tbl.

End prefix_code.

(** ** Counting and shape *)

(** Number of occurrences of [c] in [text]. *)
Definition occurrences (c : ascii) (text : str) : nat :=
  length (filter (λ x, x = c) text).

(** 1 on [c], 0 elsewhere. *)
Definition indicator (c : ascii) (x : ascii) : Z :=
  if decide (x = c) then 1%Z else 0%Z.

(** Number of [Node] objects of a tree that have children. *)
Fixpoint inner_count (t : tree) : nat :=
  match t with
  | Leaf _ _ => 0
  | Inner _ l r => S (inner_count l + inner_count r)
  end.

(** At every inner node the left child weighs no more than the right. *)
Fixpoint ordered (t : tree) : Prop :=
  match t with
  | Leaf _ _ => True
  | Inner _ l r => (weight l ≤ weight r)%Z ∧ ordered l ∧ ordered r
  end.

(** All code words of [k] bits. *)
Fixpoint words (k : nat) : list optimal.word :=
  match k with
  | 0 => [[]]
  | S k' => (cons false <$> words k') ++ (cons true <$> words k')
  end.

(** Exchanging the codes of [a] and [b]. *)
Definition exchange (a b : ascii) (ca cb : str) (codes : dict) : dict :=
  <[Some a := cb]> (<[Some b := ca]> codes).

Definition exchanged (a b c : ascii) : ascii :=
  if decide (c = a) then b else if decide (c = b) then a else c.

(** * Properties *)

Lemma Ok_inj {A} (a b : A) : Ok a = Ok b → a = b.
Proof. congruence. Qed.


(** ** [heapq]: every operation returns, and rearranges the same elements *)
Module heapq_perm.
Section heapq_perm.
Context {A : Type} (lt : A → A → bool).
Implicit Types (heap : list A) (x : A).

Lemma getitem_Some heap i x : heap !! i = Some x → getitem heap i = Ok x.
Proof. unfold getitem. by intros ->. Qed.

Lemma getitem_lt heap i : i < length heap → ∃ x, heap !! i = Some x ∧ getitem heap i = Ok x.
Proof.
  intros Hi. destruct (lookup_lt_is_Some_2 heap i Hi) as [x Hx].
  exists x. split; [done|by apply getitem_Some].
Qed.

Lemma setitem_lt heap i x : i < length heap → setitem heap i x = Ok (<[i:=x]> heap).
Proof. unfold setitem. intros Hi. by apply Nat.ltb_lt in Hi as ->. Qed.

Lemma parent_lt pos : 0 < pos → (pos - 1) / 2 < pos.
Proof.
  intros Hp. apply Nat.Div0.div_lt_upper_bound. lia.
Qed.

(** Filling the hole at [pos] with [x]: one iteration of either loop swaps
    two entries of the filled list. *)
Lemma hole_move_perm heap i j x y :
  i ≠ j → i < length heap → heap !! j = Some y →
  <[j:=x]> (<[i:=y]> heap) ≡ₚ <[i:=x]> heap.
Proof.
  intros Hij Hi Hj.
  rewrite <-(list_insert_insert_eq heap i y x).
  apply Permutation_insert_swap.
  - by rewrite list_lookup_insert_eq.
  - by rewrite list_lookup_insert_ne.
Qed.

Lemma siftdown_loop_0 heap startpos pos x :
  heapq.siftdown_loop lt 0 heap startpos pos x =
  if startpos <? pos then OutOfFuel else Ok (heap, pos).
Proof. done. Qed.

Lemma siftdown_loop_S fuel heap startpos pos x :
  heapq.siftdown_loop lt (S fuel) heap startpos pos x =
  if startpos <? pos then
    parent ← getitem heap ((pos - 1) / 2);
    if lt x parent then
      heap1 ← setitem heap pos parent;
      heapq.siftdown_loop lt fuel heap1 startpos ((pos - 1) / 2) x
    else Ok (heap, pos)
  else Ok (heap, pos).
Proof. done. Qed.

Lemma siftup_loop_0 heap endpos pos :
  heapq.siftup_loop lt 0 heap endpos pos =
  if 2 * pos + 1 <? endpos then OutOfFuel else Ok (heap, pos).
Proof. done. Qed.

Lemma siftup_loop_S fuel heap endpos pos :
  heapq.siftup_loop lt (S fuel) heap endpos pos =
  if 2 * pos + 1 <? endpos then
    childpos1 ←
      (if 2 * pos + 1 + 1 <? endpos then
         c ← getitem heap (2 * pos + 1);
         r ← getitem heap (2 * pos + 1 + 1);
         Ok (if negb (lt c r) then 2 * pos + 1 + 1 else 2 * pos + 1)
       else Ok (2 * pos + 1));
    x ← getitem heap childpos1;
    heap1 ← setitem heap pos x;
    heapq.siftup_loop lt fuel heap1 endpos childpos1
  else Ok (heap, pos).
Proof. done. Qed.

Lemma siftdown_loop_perm fuel : ∀ heap startpos pos x,
  pos < length heap → pos ≤ fuel →
  ∃ heap' pos', heapq.siftdown_loop lt fuel heap startpos pos x = Ok (heap', pos')
    ∧ length heap' = length heap ∧ pos' < length heap
    ∧ <[pos':=x]> heap' ≡ₚ <[pos:=x]> heap.
Proof.
  induction fuel as [|fuel IH]; intros heap startpos pos x Hpos Hfuel.
  - rewrite siftdown_loop_0.
    destruct (Nat.ltb_spec startpos pos); [lia|]. by exists heap, pos.
  - rewrite siftdown_loop_S.
    destruct (Nat.ltb_spec startpos pos) as [Hlt|]; [|by exists heap, pos].
    pose proof (parent_lt pos ltac:(lia)) as Hpar.
    destruct (getitem_lt heap ((pos - 1) / 2) ltac:(lia)) as (parent & Hparent & ->).
    cbn [mbind Result_bind]. destruct (lt x parent); [|by exists heap, pos].
    rewrite setitem_lt by done. cbn [mbind Result_bind].
    destruct (IH (<[pos:=parent]> heap) startpos ((pos - 1) / 2) x)
      as (heap' & pos' & -> & Hlen & Hpos' & Hperm).
    { rewrite length_insert. lia. }
    { lia. }
    rewrite length_insert in Hlen, Hpos'.
    exists heap', pos'. split_and!; [done..|].
    rewrite Hperm. apply hole_move_perm; [lia|done|done].
Qed.

Lemma siftdown_perm heap startpos pos :
  pos < length heap →
  ∃ heap', heapq._siftdown lt heap startpos pos = Ok heap' ∧ heap' ≡ₚ heap.
Proof.
  intros Hpos. unfold heapq._siftdown.
  destruct (getitem_lt heap pos Hpos) as (x & Hx & ->). cbn [mbind Result_bind].
  destruct (siftdown_loop_perm pos heap startpos pos x)
    as (heap' & pos' & -> & Hlen & Hpos' & Hperm); [done..|].
  cbn [mbind Result_bind]. rewrite setitem_lt by lia. eexists; split; [done|].
  by rewrite Hperm, list_insert_id.
Qed.

Lemma siftup_child heap pos :
  2 * pos + 1 < length heap →
  ∃ childpos1, childpos1 < length heap ∧ pos < childpos1 ∧
    (if 2 * pos + 1 + 1 <? length heap
     then c ← getitem heap (2 * pos + 1); r ← getitem heap (2 * pos + 1 + 1);
          Ok (if negb (lt c r) then 2 * pos + 1 + 1 else 2 * pos + 1)
     else Ok (2 * pos + 1)) = Ok childpos1.
Proof.
  intros Hc. destruct (Nat.ltb_spec (2 * pos + 1 + 1) (length heap)) as [Hr|].
  - destruct (getitem_lt heap (2 * pos + 1) Hc) as (c & _ & ->).
    destruct (getitem_lt heap (2 * pos + 1 + 1) Hr) as (r & _ & ->).
    cbn [mbind Result_bind].
    destruct (negb (lt c r)); eexists; (split_and!; [| |done]); lia.
  - exists (2 * pos + 1). split_and!; [done|lia|done].
Qed.

Lemma siftup_loop_perm fuel : ∀ heap pos x,
  pos < length heap → length heap ≤ fuel + pos →
  ∃ heap' pos', heapq.siftup_loop lt fuel heap (length heap) pos = Ok (heap', pos')
    ∧ length heap' = length heap ∧ pos' < length heap
    ∧ <[pos':=x]> heap' ≡ₚ <[pos:=x]> heap.
Proof.
  induction fuel as [|fuel IH]; intros heap pos x Hpos Hfuel.
  - rewrite siftup_loop_0.
    destruct (Nat.ltb_spec (2 * pos + 1) (length heap)); [lia|].
    by exists heap, pos.
  - rewrite siftup_loop_S.
    destruct (Nat.ltb_spec (2 * pos + 1) (length heap)) as [Hc|];
      [|by exists heap, pos].
    destruct (siftup_child heap pos Hc) as (childpos1 & Hc1 & Hpc & ->).
    cbn [mbind Result_bind].
    destruct (getitem_lt heap childpos1 Hc1) as (y & Hy & ->).
    cbn [mbind Result_bind]. rewrite setitem_lt by done. cbn [mbind Result_bind].
    destruct (IH (<[pos:=y]> heap) childpos1 x)
      as (heap' & pos' & Heq & Hlen & Hpos' & Hperm).
    { by rewrite length_insert. }
    { rewrite length_insert. lia. }
    rewrite length_insert in Heq, Hlen, Hpos'. rewrite Heq.
    exists heap', pos'. split_and!; [done..|].
    rewrite Hperm. apply hole_move_perm; [lia|done|done].
Qed.

Lemma siftup_perm heap pos :
  pos < length heap →
  ∃ heap', heapq._siftup lt heap pos = Ok heap' ∧ heap' ≡ₚ heap.
Proof.
  intros Hpos. unfold heapq._siftup.
  destruct (getitem_lt heap pos Hpos) as (x & Hx & ->). cbn [mbind Result_bind].
  destruct (siftup_loop_perm (length heap) heap pos x)
    as (heap1 & pos1 & -> & Hlen & Hpos1 & Hperm); [done|lia|].
  cbn [mbind Result_bind]. rewrite setitem_lt by lia. cbn [mbind Result_bind].
  destruct (siftdown_perm (<[pos1:=x]> heap1) pos pos1) as (heap' & -> & Hperm').
  { rewrite length_insert. lia. }
  exists heap'. split; [done|].
  by rewrite Hperm', Hperm, list_insert_id.
Qed.

Lemma heappush_perm heap item :
  ∃ heap', heapq.heappush lt heap item = Ok heap' ∧ heap' ≡ₚ item :: heap.
Proof.
  unfold heapq.heappush.
  destruct (siftdown_perm (heap ++ [item]) 0 (length (heap ++ [item]) - 1))
    as (heap' & -> & Hperm).
  { rewrite length_app. simpl. lia. }
  exists heap'. split; [done|].
  by rewrite Hperm, Permutation_app_comm.
Qed.

Lemma list_pop_snoc heap x : list_pop (heap ++ [x]) = Ok (x, heap).
Proof.
  unfold list_pop. rewrite last_snoc, length_app. simpl.
  replace (length heap + 1 - 1) with (length heap) by lia.
  by rewrite take_app_length.
Qed.

Lemma heappop_nil : heapq.heappop lt [] = Raise IndexError.
Proof. done. Qed.

Lemma heappop_perm heap :
  heap ≠ [] →
  ∃ x heap', heapq.heappop lt heap = Ok (x, heap') ∧ heap ≡ₚ x :: heap'.
Proof.
  intros Hne. unfold heapq.heappop.
  destruct (last heap) as [lastelt|] eqn:Hlast; [|by apply last_None in Hlast].
  apply last_Some in Hlast as [heap1 ->].
  rewrite list_pop_snoc. simpl.
  destruct heap1 as [|returnitem heap1].
  { exists lastelt, []. done. }
  simpl.
  destruct (siftup_perm (lastelt :: heap1) 0) as (heap3 & Heq & Hperm).
  { simpl. lia. }
  unfold setitem. simpl. rewrite Heq. simpl.
  exists returnitem, heap3. split; [done|].
  rewrite Hperm. simpl. rewrite <-Permutation_cons_append.
  by rewrite (Permutation_swap lastelt returnitem heap1).
Qed.

Lemma heapify_from_perm n : ∀ heap,
  n ≤ length heap →
  ∃ heap', heapq.heapify_from lt n heap = Ok heap' ∧ heap' ≡ₚ heap.
Proof.
  induction n as [|n IH]; intros heap Hn; simpl.
  - by exists heap.
  - destruct (siftup_perm heap n) as (heap1 & -> & Hperm); [lia|]. simpl.
    destruct (IH heap1) as (heap' & -> & Hperm').
    { rewrite Hperm. lia. }
    exists heap'. split; [done|]. by rewrite Hperm'.
Qed.

Lemma heapify_perm heap :
  ∃ heap', heapq.heapify lt heap = Ok heap' ∧ heap' ≡ₚ heap.
Proof.
  apply heapify_from_perm. apply Nat.Div0.div_le_upper_bound. lia.
Qed.

End heapq_perm.
End heapq_perm.

(** ** [heapq]: the heap order, for a [<] that compares an integer key *)
Module heapq_order.
Section heapq_order.
Import heapq_inv.
Context {A : Type} (lt : A → A → bool) (key : A → Z).
Hypothesis lt_key : ∀ x y, lt x y = (key x <? key y)%Z.
Implicit Types (heap h : list A) (x : A).

Local Abbreviation heap_edges := (heap_edges key).
Local Abbreviation is_heap := (is_heap key).
Local Abbreviation edges_except := (edges_except key).
Local Abbreviation grand_ok := (grand_ok key).
Local Abbreviation sift_inv := (sift_inv key).

Lemma child_parent i c : child i c → (c - 1) / 2 = i ∧ i < c.
Proof.
  intros [-> | ->]; split; try lia.
  - replace (2 * i + 1 - 1) with (i * 2) by lia. apply Nat.div_mul. lia.
  - replace (2 * i + 2 - 1) with (1 + i * 2) by lia.
    rewrite Nat.div_add by lia. done.
Qed.

Lemma parent_child pos : 0 < pos → child ((pos - 1) / 2) pos.
Proof.
  intros Hpos. unfold child.
  pose proof (Nat.div_mod_eq (pos - 1) 2).
  pose proof (Nat.mod_upper_bound (pos - 1) 2). lia.
Qed.

Lemma desc_le s pos : desc s pos → s ≤ pos.
Proof. induction 1 as [|p c _ IH [-> | ->]]; lia. Qed.

Lemma desc_parent s pos : desc s pos → s < pos → desc s ((pos - 1) / 2).
Proof.
  destruct 1 as [|p c Hp Hc]; [lia|]. intros _.
  by destruct (child_parent p c Hc) as [-> _].
Qed.

Lemma desc_0 pos : desc 0 pos.
Proof.
  induction (lt_wf pos) as [pos _ IH].
  destruct (decide (pos = 0)) as [->|Hne]; [constructor|].
  apply desc_child with ((pos - 1) / 2); [|apply parent_child; lia].
  apply IH. apply heapq_perm.parent_lt. lia.
Qed.

Lemma sift_inv_insert s h pos y : sift_inv s h pos → sift_inv s (<[pos:=y]> h) pos.
Proof.
  intros (Hpos & Hd & He & Hg). split_and!; [by rewrite length_insert|done|..].
  - intros i c a b Hi Hc Hip Hcp Ha Hb.
    rewrite list_lookup_insert_ne in Ha, Hb by done. eauto.
  - intros c a b Hs Hc Ha Hb.
    destruct (child_parent _ _ Hc).
    pose proof (heapq_perm.parent_lt pos ltac:(lia)).
    rewrite list_lookup_insert_ne in Ha, Hb by lia. eauto.
Qed.

Lemma siftdown_loop_order s fuel : ∀ h pos x h' pos',
  heapq.siftdown_loop lt fuel h s pos x = Ok (h', pos') →
  sift_inv s h pos →
  (∀ c b, child pos c → h !! c = Some b → (key x ≤ key b)%Z) →
  heap_edges s (<[pos':=x]> h').
Proof.
  assert (Hbase : ∀ h pos x,
    sift_inv s h pos →
    (∀ c b, child pos c → h !! c = Some b → (key x ≤ key b)%Z) →
    (s < pos → ∀ a, h !! ((pos - 1) / 2) = Some a → (key a ≤ key x)%Z) →
    heap_edges s (<[pos:=x]> h)).
  { intros h pos x (Hpos & Hd & He & Hg) Hx Hpar i c a b Hi Hc Ha Hb.
    destruct (child_parent _ _ Hc) as [Hp Hlt].
    destruct (decide (c = pos)) as [->|Hcp].
    - rewrite list_lookup_insert_eq in Hb by done.
      rewrite list_lookup_insert_ne in Ha by lia.
      simplify_eq. apply Hpar; [lia|done].
    - rewrite list_lookup_insert_ne in Hb by done.
      destruct (decide (i = pos)) as [->|Hip].
      + rewrite list_lookup_insert_eq in Ha by done. simplify_eq. eauto.
      + rewrite list_lookup_insert_ne in Ha by done. eauto. }
  induction fuel as [|fuel IH]; intros h pos x h' pos' Hrun Hinv Hx.
  - rewrite heapq_perm.siftdown_loop_0 in Hrun.
    destruct (Nat.ltb_spec s pos); [done|]. simplify_eq.
    apply Hbase; [done..|lia].
  - rewrite heapq_perm.siftdown_loop_S in Hrun.
    destruct (Nat.ltb_spec s pos) as [Hlt|]; cycle 1.
    { simplify_eq. apply Hbase; [done..|lia]. }
    pose proof Hinv as (Hpos & Hd & He & Hg).
    pose proof (heapq_perm.parent_lt pos ltac:(lia)) as Hpar.
    pose proof (parent_child pos ltac:(lia)) as Hpc.
    set (p := (pos - 1) / 2) in *.
    destruct (heapq_perm.getitem_lt h p ltac:(lia)) as (a & Ha & Hget).
    rewrite Hget in Hrun. cbn [mbind Result_bind] in Hrun.
    rewrite lt_key in Hrun.
    destruct (Z.ltb_spec (key x) (key a)) as [Hxa|Hxa]; cycle 1.
    { simplify_eq. apply Hbase; [done..|]. intros _ a' Ha'.
      fold p in Ha'. by simplify_eq. }
    rewrite heapq_perm.setitem_lt in Hrun by done.
    cbn [mbind Result_bind] in Hrun.
    apply IH in Hrun; [done|..].
    + split_and!.
      * rewrite length_insert. lia.
      * by apply desc_parent.
      * intros i c a' b' Hi Hc Hip Hcp Ha' Hb'.
        destruct (child_parent _ _ Hc) as [Hp Hic].
        destruct (decide (c = pos)) as [->|Hcpos]; [by subst p|].
        rewrite list_lookup_insert_ne in Hb' by done.
        destruct (decide (i = pos)) as [->|Hipos].
        -- rewrite list_lookup_insert_eq in Ha' by done. simplify_eq.
           by eapply (Hg c a' b').
        -- rewrite list_lookup_insert_ne in Ha' by done. eauto.
      * intros c g b' Hsp Hc Hg' Hb'.
        pose proof (heapq_perm.parent_lt p ltac:(lia)) as Hgp.
        pose proof (parent_child p ltac:(lia)) as Hgc.
        rewrite list_lookup_insert_ne in Hg' by lia.
        assert (key g ≤ key a)%Z as Hga.
        { apply (He ((p - 1) / 2) p g a); first [done|lia|idtac].
          apply desc_parent in Hd; [|lia].
          fold p in Hd. apply desc_parent in Hd; [|lia]. by apply desc_le in Hd. }
        destruct (decide (c = pos)) as [->|Hcpos].
        -- rewrite list_lookup_insert_eq in Hb' by done. by simplify_eq.
        -- rewrite list_lookup_insert_ne in Hb' by done.
           destruct (child_parent _ _ Hc).
           assert (key a ≤ key b')%Z; [|lia].
           apply (He p c a b'); first [done|lia].
    + intros c b' Hc Hb'.
      destruct (decide (c = pos)) as [->|Hcpos].
      * rewrite list_lookup_insert_eq in Hb' by done. simplify_eq. lia.
      * rewrite list_lookup_insert_ne in Hb' by done.
        destruct (child_parent _ _ Hc).
        assert (key a ≤ key b')%Z; [|lia].
        apply (He p c a b'); first [done|lia|idtac].
        apply desc_parent in Hd; [|lia]. by apply desc_le in Hd.
Qed.

Lemma lookup_same_index h i j a b :
  h !! i = Some a → h !! j = Some b → i = j → a = b.
Proof. intros Ha Hb ->. congruence. Qed.

Lemma siftup_child_order h pos c1 :
  (if 2 * pos + 1 + 1 <? length h
   then c ← getitem h (2 * pos + 1); r ← getitem h (2 * pos + 1 + 1);
        Ok (if negb (lt c r) then 2 * pos + 1 + 1 else 2 * pos + 1)
   else Ok (2 * pos + 1)) = Ok c1 →
  child pos c1 ∧
  ∀ y c b, h !! c1 = Some y → child pos c → h !! c = Some b → (key y ≤ key b)%Z.
Proof.
  unfold child. destruct (Nat.ltb_spec (2 * pos + 1 + 1) (length h)) as [Hr|Hr].
  - unfold getitem.
    destruct (h !! (2 * pos + 1)) as [c|] eqn:Hc; [|done].
    destruct (h !! (2 * pos + 1 + 1)) as [r|] eqn:Hr'; [|done].
    cbn [mbind Result_bind]. rewrite lt_key.
    destruct (Z.ltb_spec (key c) (key r)); cbn [negb]; intros Heq%Ok_inj;
      (split; [lia|]); intros y c' b Hy Hc' Hb.
    + pose proof (lookup_same_index _ _ _ _ _ Hy Hc ltac:(lia)) as ->.
      destruct Hc' as [Hc' | Hc'].
      * pose proof (lookup_same_index _ _ _ _ _ Hb Hc ltac:(lia)) as ->. lia.
      * pose proof (lookup_same_index _ _ _ _ _ Hb Hr' ltac:(lia)) as ->. lia.
    + pose proof (lookup_same_index _ _ _ _ _ Hy Hr' ltac:(lia)) as ->.
      destruct Hc' as [Hc' | Hc'].
      * pose proof (lookup_same_index _ _ _ _ _ Hb Hc ltac:(lia)) as ->. lia.
      * pose proof (lookup_same_index _ _ _ _ _ Hb Hr' ltac:(lia)) as ->. lia.
  - intros Heq%Ok_inj. split; [lia|]. intros y c b Hy [Hc | Hc] Hb.
    + pose proof (lookup_same_index _ _ _ _ _ Hy Hb ltac:(lia)) as ->. lia.
    + apply lookup_lt_Some in Hb. lia.
Qed.

Lemma siftup_loop_order s fuel : ∀ h pos h' pos',
  heapq.siftup_loop lt fuel h (length h) pos = Ok (h', pos') →
  sift_inv s h pos →
  sift_inv s h' pos' ∧ length h' = length h ∧ length h ≤ 2 * pos' + 1.
Proof.
  induction fuel as [|fuel IH]; intros h pos h' pos' Hrun Hinv.
  - rewrite heapq_perm.siftup_loop_0 in Hrun.
    destruct (Nat.ltb_spec (2 * pos + 1) (length h)); [done|]. by simplify_eq.
  - rewrite heapq_perm.siftup_loop_S in Hrun.
    destruct (Nat.ltb_spec (2 * pos + 1) (length h)) as [Hc|]; [|by simplify_eq].
    match type of Hrun with (?m ≫= _) = _ => destruct m as [c1| |] eqn:Hsel end;
      [|done..].
    apply siftup_child_order in Hsel as [Hch Hmin].
    cbn [mbind Result_bind] in Hrun. unfold getitem in Hrun.
    destruct (h !! c1) as [y|] eqn:Hy; [|done].
    cbn [mbind Result_bind] in Hrun.
    destruct Hinv as (Hpos & Hd & He & Hg).
    rewrite heapq_perm.setitem_lt in Hrun by done.
    cbn [mbind Result_bind] in Hrun.
    destruct (child_parent _ _ Hch) as [Hpar Hlt].
    rewrite <-(length_insert h pos y) in Hrun.
    apply IH in Hrun.
    { rewrite !length_insert in Hrun. done. }
    pose proof (desc_le _ _ Hd) as Hsp.
    apply lookup_lt_Some in Hy as Hc1.
    split_and!.
    + by rewrite length_insert.
    + by eapply desc_child.
    + intros i c a b Hi Hic Hi1 Hc1' Ha Hb.
      destruct (child_parent _ _ Hic) as [Hip Hilt].
      destruct (decide (i = pos)) as [->|Hipos].
      * rewrite list_lookup_insert_eq in Ha by done.
        rewrite list_lookup_insert_ne in Hb by lia. simplify_eq. eauto.
      * rewrite list_lookup_insert_ne in Ha by done.
        destruct (decide (c = pos)) as [->|Hcpos].
        -- rewrite list_lookup_insert_eq in Hb by done. simplify_eq.
           apply (Hg c1 a b); [lia|done|done|done].
        -- rewrite list_lookup_insert_ne in Hb by done. eauto.
    + intros c a b Hs Hcc Ha Hb.
      destruct (child_parent _ _ Hcc) as [_ Hclt].
      rewrite Hpar, list_lookup_insert_eq in Ha by done.
      rewrite list_lookup_insert_ne in Hb by lia. simplify_eq.
      apply (He c1 c a b); first [done|lia].
Qed.

Lemma siftdown_order s h pos h' :
  heapq._siftdown lt h s pos = Ok h' →
  sift_inv s h pos →
  (∀ x c b, h !! pos = Some x → child pos c → h !! c = Some b → (key x ≤ key b)%Z) →
  heap_edges s h'.
Proof.
  unfold heapq._siftdown, getitem. intros Hrun Hinv Hx.
  destruct (h !! pos) as [x|] eqn:Hpos; [|done].
  cbn [mbind Result_bind] in Hrun.
  destruct (heapq.siftdown_loop lt pos h s pos x) as [[h1 pos1]| |] eqn:Hloop;
    [|done..].
  cbn [mbind Result_bind] in Hrun. unfold setitem in Hrun.
  destruct (pos1 <? length h1); [|done]. simplify_eq.
  eapply siftdown_loop_order; eauto.
Qed.

Lemma siftup_order h pos h' :
  heapq._siftup lt h pos = Ok h' →
  pos < length h → heap_edges (S pos) h → heap_edges pos h'.
Proof.
  unfold heapq._siftup, getitem. intros Hrun Hpos Hh.
  destruct (h !! pos) as [x|] eqn:Hx; [|done].
  cbn [mbind Result_bind] in Hrun.
  destruct (heapq.siftup_loop lt (length h) h (length h) pos)
    as [[h1 pos1]| |] eqn:Hloop; [|done..].
  cbn [mbind Result_bind] in Hrun.
  apply (siftup_loop_order pos) in Hloop as (Hinv & Hlen & Hleaf).
  - pose proof Hinv as (Hpos1 & _).
    rewrite heapq_perm.setitem_lt in Hrun by done.
    cbn [mbind Result_bind] in Hrun.
    eapply siftdown_order; [done|by apply sift_inv_insert|].
    intros x' c b _ [-> | ->] Hb; apply lookup_lt_Some in Hb;
      rewrite length_insert in Hb; lia.
  - split_and!; [done|constructor|..].
    + intros i c a b Hi Hc Hip _ Ha Hb. apply (Hh i c a b); first [done|lia].
    + intros c a b Hs. lia.
Qed.

Lemma heappush_order heap item heap' :
  heapq.heappush lt heap item = Ok heap' → is_heap heap → is_heap heap'.
Proof.
  unfold heapq.heappush. rewrite length_app. simpl.
  replace (length heap + 1 - 1) with (length heap) by lia.
  intros Hrun Hh. eapply siftdown_order; [done|..].
  - split_and!.
    + rewrite length_app. simpl. lia.
    + apply desc_0.
    + intros i c a b _ Hc Hi Hc' Ha Hb.
      apply lookup_lt_Some in Ha as Hia. apply lookup_lt_Some in Hb as Hcb.
      rewrite length_app in Hia, Hcb. simpl in Hia, Hcb.
      rewrite lookup_app_l in Ha, Hb by lia.
      apply (Hh i c a b); first [done|lia].
    + intros c a b _ [-> | ->] _ Hb; apply lookup_lt_Some in Hb;
        rewrite length_app in Hb; simpl in Hb; lia.
  - intros x c b _ [-> | ->] Hb; apply lookup_lt_Some in Hb;
      rewrite length_app in Hb; simpl in Hb; lia.
Qed.

Lemma heap_min h x : is_heap h → h !! 0 = Some x →
  ∀ j y, h !! j = Some y → (key x ≤ key y)%Z.
Proof.
  intros Hh Hx j. induction (lt_wf j) as [j _ IH]. intros y Hy.
  destruct (decide (j = 0)) as [->|Hj]; [simplify_eq; lia|].
  pose proof (heapq_perm.parent_lt j ltac:(lia)) as Hpar.
  pose proof (parent_child j ltac:(lia)) as Hpc.
  apply lookup_lt_Some in Hy as Hjl.
  destruct (lookup_lt_is_Some_2 h ((j - 1) / 2) ltac:(lia)) as [a Ha].
  pose proof (IH _ Hpar a Ha).
  pose proof (Hh ((j - 1) / 2) j a y ltac:(lia) Hpc Ha Hy). lia.
Qed.

Lemma heappop_order heap x heap' :
  heapq.heappop lt heap = Ok (x, heap') → is_heap heap →
  is_heap heap' ∧ ∀ y, y ∈ heap → (key x ≤ key y)%Z.
Proof.
  unfold heapq.heappop. intros Hrun Hh.
  destruct (last heap) as [lastelt|] eqn:Hlast; cycle 1.
  { unfold list_pop in Hrun. by rewrite Hlast in Hrun. }
  apply last_Some in Hlast as [heap1 ->].
  rewrite heapq_perm.list_pop_snoc in Hrun. cbn [mbind Result_bind] in Hrun.
  destruct heap1 as [|returnitem heap1].
  { simplify_eq. split.
    - intros i c a b _ _ Ha. done.
    - intros y ->%list_elem_of_singleton. lia. }
  unfold getitem, setitem in Hrun. simpl in Hrun.
  destruct (heapq._siftup lt (lastelt :: heap1) 0) as [heap3| |] eqn:Hup;
    [|done..].
  cbn [mbind Result_bind] in Hrun. simplify_eq. split.
  - eapply siftup_order; [done|simpl; lia|].
    intros i c a b Hi Hc Ha Hb.
    destruct (child_parent _ _ Hc).
    destruct i as [|i]; [lia|]. destruct c as [|c]; [lia|]. simpl in Ha, Hb.
    apply lookup_lt_Some in Ha as Hia. apply lookup_lt_Some in Hb as Hcb.
    apply (Hh (S i) (S c) a b); [lia|done|..]; simpl;
      by rewrite lookup_app_l by lia.
  - intros y [j Hj]%list_elem_of_lookup. by eapply (heap_min _ x Hh).
Qed.

Lemma heapify_from_order n : ∀ h h',
  heapq.heapify_from lt n h = Ok h' →
  n ≤ length h → heap_edges n h → is_heap h'.
Proof.
  induction n as [|n IH]; intros h h' Hrun Hn Hh; simpl in Hrun.
  - by simplify_eq.
  - destruct (heapq._siftup lt h n) as [h1| |] eqn:Hup; [|done..].
    cbn [mbind Result_bind] in Hrun.
    destruct (heapq_perm.siftup_perm lt h n ltac:(lia)) as (h1' & Hup' & Hperm).
    apply (IH h1); [done|..].
    + rewrite Hup in Hup'. apply Ok_inj in Hup' as <-. rewrite Hperm. lia.
    + eapply siftup_order; [done|lia|done].
Qed.

Lemma heapify_order h h' : heapq.heapify lt h = Ok h' → is_heap h'.
Proof.
  intros Hrun. eapply heapify_from_order; [done|..].
  - apply Nat.Div0.div_le_upper_bound. lia.
  - intros i c a b Hi Hc _ Hb. apply lookup_lt_Some in Hb.
    pose proof (Nat.div_mod_eq (length h) 2).
    pose proof (Nat.mod_upper_bound (length h) 2).
    destruct Hc; lia.
Qed.

End heapq_order.
End heapq_order.

(** ** Trees as [Node] objects, and the queue of trees *)

Lemma freq_node_of t : freq (node_of t) = weight t.
Proof. by destruct t. Qed.

Lemma node_of_inj t1 t2 : node_of t1 = node_of t2 → t1 = t2.
Proof.
  revert t2. induction t1 as [c f|f l IHl r IHr]; intros [c' f'|f' l' r'];
    simpl; intros Heq; simplify_eq; [done|].
  f_equal; eauto.
Qed.

Lemma Node_lt_key x y : Node_lt x y = (freq x <? freq y)%Z.
Proof. done. Qed.

Lemma perm_node_of_inv (heap : list Node) (ts : list tree) :
  heap ≡ₚ node_of <$> ts → ∃ ts', heap = node_of <$> ts' ∧ ts ≡ₚ ts'.
Proof. apply Permutation_map_inv. Qed.

Module build.
Import HuffmanAlgorithm.

Abbreviation is_heap := (heapq_inv.is_heap freq).

(** [heappop] on a queue of trees: a tree of least weight and the rest. *)
Lemma heappop_trees ts :
  is_heap (node_of <$> ts) → ts ≠ [] →
  ∃ t1 ts1, heapq.heappop Node_lt (node_of <$> ts) = Ok (node_of t1, node_of <$> ts1)
    ∧ ts ≡ₚ t1 :: ts1 ∧ is_heap (node_of <$> ts1)
    ∧ ∀ u, u ∈ ts1 → (weight t1 ≤ weight u)%Z.
Proof.
  intros Hh Hne.
  destruct (heapq_perm.heappop_perm Node_lt (node_of <$> ts)) as (x & heap1 & Hpop & Hperm).
  { by destruct ts. }
  destruct (heapq_order.heappop_order Node_lt freq Node_lt_key _ _ _ Hpop Hh)
    as [Hh1 Hmin].
  symmetry in Hperm. apply perm_node_of_inv in Hperm as (ts' & Heq & Hperm).
  destruct ts' as [|t1 ts1]; [done|]. simpl in Heq. simplify_eq.
  exists t1, ts1. split_and!; [done..|].
  intros u Hu. rewrite <-!freq_node_of. apply Hmin.
  apply list_elem_of_fmap. exists u. split; [done|].
  rewrite Hperm. by right.
Qed.

Lemma heappush_trees ts t :
  is_heap (node_of <$> ts) →
  ∃ ts', heapq.heappush Node_lt (node_of <$> ts) (node_of t) = Ok (node_of <$> ts')
    ∧ ts' ≡ₚ t :: ts ∧ is_heap (node_of <$> ts').
Proof.
  intros Hh.
  destruct (heapq_perm.heappush_perm Node_lt (node_of <$> ts) (node_of t))
    as (heap' & Hpush & Hperm).
  pose proof (heapq_order.heappush_order Node_lt freq Node_lt_key _ _ _ Hpush Hh) as Hh'.
  change (node_of t :: (node_of <$> ts)) with (node_of <$> (t :: ts)) in Hperm.
  apply perm_node_of_inv in Hperm as (ts' & -> & Hperm).
  exists ts'. by split_and!.
Qed.

Lemma heapify_trees ts :
  ∃ ts', heapq.heapify Node_lt (node_of <$> ts) = Ok (node_of <$> ts')
    ∧ ts' ≡ₚ ts ∧ is_heap (node_of <$> ts').
Proof.
  destruct (heapq_perm.heapify_perm Node_lt (node_of <$> ts)) as (heap' & Hrun & Hperm).
  pose proof (heapq_order.heapify_order Node_lt freq Node_lt_key _ _ Hrun) as Hh'.
  apply perm_node_of_inv in Hperm as (ts' & -> & Hperm).
  exists ts'. by split_and!.
Qed.

Lemma merge_loop_unfold fuel heap :
  merge_loop fuel heap =
  if 1 <? length heap then
    match fuel with
    | 0 => OutOfFuel
    | S fuel' =>
        '(node1, heap1) ← heapq.heappop Node_lt heap;
        '(node2, heap2) ← heapq.heappop Node_lt heap1;
        heap3 ← heapq.heappush Node_lt heap2
                  (mkNode None (freq node1 + freq node2) (Some node1) (Some node2));
        merge_loop fuel' heap3
    end
  else Ok heap.
Proof. by destruct fuel. Qed.

(** The loop returns, with a single tree that the greedy merging yields. *)
Lemma merge_loop_run fuel : ∀ ts,
  is_heap (node_of <$> ts) → ts ≠ [] → length ts ≤ S fuel →
  ∃ t, merge_loop fuel (node_of <$> ts) = Ok [node_of t] ∧ huffman_run ts t.
Proof.
  induction fuel as [|fuel IH]; intros ts Hh Hne Hfuel;
    rewrite merge_loop_unfold, length_fmap.
  - destruct ts as [|t [|??]]; [done| |simpl in Hfuel; lia].
    exists t. split; [done|constructor].
  - destruct (Nat.ltb_spec 1 (length ts)) as [Hlen|Hlen].
    2:{ destruct ts as [|t [|??]]; [done| |simpl in Hlen; lia].
        exists t. split; [done|constructor]. }
    destruct (heappop_trees ts Hh Hne) as (t1 & ts1 & -> & Hp1 & Hh1 & Hmin1).
    cbn [mbind Result_bind].
    assert (length ts = S (length ts1)) as Hl1 by by rewrite Hp1.
    destruct (heappop_trees ts1 Hh1) as (t2 & ts2 & -> & Hp2 & Hh2 & Hmin2).
    { intros ->. simpl in Hl1. lia. }
    cbn [mbind Result_bind].
    assert (length ts1 = S (length ts2)) as Hl2 by by rewrite Hp2.
    rewrite !freq_node_of.
    destruct (heappush_trees ts2 (Inner (weight t1 + weight t2) t1 t2) Hh2)
      as (ts3 & Hpush & Hp3 & Hh3).
    simpl in Hpush. rewrite Hpush. cbn [mbind Result_bind].
    destruct (IH ts3 Hh3) as (t & Hrun & Ht).
    { intros ->. by apply Permutation_nil_cons in Hp3. }
    { rewrite Hp3. simpl. lia. }
    exists t. split; [done|].
    eapply run_merge; [|..|exact Hp3|exact Ht].
    + by rewrite Hp1, Hp2.
    + intros u Hu. apply Hmin1. by rewrite Hp2.
    + done.
Qed.

Lemma heap_of_table (freq_table : list (ascii * Z)) :
  map (λ '(c, f), Node_init (Some c) f) freq_table = node_of <$> (leaf_of <$> freq_table).
Proof.
  induction freq_table as [|[c f] tbl IH]; [done|]. simpl. by rewrite IH.
Qed.

Lemma build_huffman_tree_run freq_table :
  freq_table ≠ [] →
  ∃ t ts, build_huffman_tree freq_table = Ok (node_of t)
    ∧ ts ≡ₚ leaf_of <$> freq_table ∧ huffman_run ts t.
Proof.
  intros Hne. unfold build_huffman_tree. rewrite heap_of_table.
  destruct (heapify_trees (leaf_of <$> freq_table)) as (ts & -> & Hperm & Hh).
  cbn [mbind Result_bind].
  destruct (merge_loop_run (length (node_of <$> ts)) ts Hh) as (t & -> & Hrun).
  { intros ->. apply Permutation_nil in Hperm. by destruct freq_table. }
  { rewrite length_fmap. lia. }
  exists t, ts. done.
Qed.

Lemma build_huffman_tree_empty : build_huffman_tree [] = Raise IndexError.
Proof. done. Qed.

End build.

(** ** Shape of the result of the greedy merging *)

Lemma huffman_run_leaves ts t : huffman_run ts t → leaves t ≡ₚ ts ≫= leaves.
Proof.
  induction 1 as [t|ts t1 t2 rest ts' t Hp _ _ Hp' _ IH]; simpl.
  - by rewrite app_nil_r.
  - rewrite IH, Hp', Hp. simpl. by rewrite (assoc app).
Qed.

Lemma huffman_run_shape ts t : huffman_run ts t → ts = [t] ∨ is_inner t.
Proof.
  induction 1 as [t|ts t1 t2 rest ts' t _ _ _ Hp' _ IH]; [by left|right].
  destruct IH as [->|]; [|done].
  apply Permutation_singleton_l in Hp'. by simplify_eq.
Qed.

Lemma huffman_run_nonempty ts t : huffman_run ts t → ts ≠ [].
Proof.
  destruct 1 as [|ts t1 t2 rest ts' t Hp]; [done|].
  intros ->. by apply Permutation_nil_cons in Hp.
Qed.

(** ** Code tables *)

Lemma dict_setitem_lookup (l : loc) (k : option ascii) (v : str) (σ : store) (d : dict) :
  σ !! l = Some d → dict_setitem l k v σ = <[l := <[k:=v]> d]> σ.
Proof.
  unfold dict_setitem. revert l. induction σ as [|d' σ IH]; intros [|l] Hl;
    simplify_eq/=; [done|]. f_equal. by apply IH.
Qed.

Lemma paths_leaves t : (paths t).*1 = leaves t.
Proof.
  induction t as [c f|f l IHl r IHr]; simpl; [done|].
  rewrite fmap_app, <-!list_fmap_compose, <-IHl, <-IHr.
  f_equal; by apply list_fmap_ext; intros ? [??].
Qed.

Lemma elem_of_paths_inner f l r c p :
  (c, p) ∈ paths (Inner f l r) ↔
  (∃ p', p = "0"%char :: p' ∧ (c, p') ∈ paths l) ∨
  (∃ p', p = "1"%char :: p' ∧ (c, p') ∈ paths r).
Proof.
  simpl. rewrite elem_of_app, !list_elem_of_fmap. split.
  - intros [([c' p'] & Heq & Hin)|([c' p'] & Heq & Hin)]; simpl in Heq;
      simplify_eq; eauto.
  - intros [(p' & -> & Hin)|(p' & -> & Hin)]; [left|right];
      by exists (c, p').
Qed.

Lemma elem_of_paths_leaves t c p : (c, p) ∈ paths t → c ∈ leaves t.
Proof.
  intros Hin. rewrite <-paths_leaves. apply list_elem_of_fmap. by exists (c, p).
Qed.

Lemma elem_of_leaves_paths t c : c ∈ leaves t → ∃ p, (c, p) ∈ paths t.
Proof.
  rewrite <-paths_leaves. intros ([c' p] & -> & Hin)%list_elem_of_fmap. eauto.
Qed.

Lemma paths_inner_nonempty t c p : is_inner t → (c, p) ∈ paths t → p ≠ [].
Proof.
  destruct t; [done|]. intros _ [(?&->&_)|(?&->&_)]%elem_of_paths_inner; done.
Qed.

Lemma fill_codes_notin t : ∀ cur d k,
  k ∉ Some <$> leaves t → fill_codes t cur d !! k = d !! k.
Proof.
  induction t as [c f|f l IHl r IHr]; intros cur d k Hk; simpl in *.
  - apply lookup_insert_ne. intros <-. apply Hk. by left.
  - rewrite fmap_app in Hk. apply not_elem_of_app in Hk as [Hkl Hkr].
    by rewrite IHr, IHl.
Qed.

Lemma fill_codes_path t : ∀ cur d c p,
  NoDup (leaves t) → (c, p) ∈ paths t → cur ++ p ≠ [] →
  fill_codes t cur d !! Some c = Some (cur ++ p).
Proof.
  induction t as [c0 f|f l IHl r IHr]; intros cur d c p Hnd Hin Hne.
  - simpl in *. apply list_elem_of_singleton in Hin. simplify_eq.
    rewrite app_nil_r in *. rewrite lookup_insert_eq. by case_decide.
  - simpl in Hnd. apply NoDup_app in Hnd as (Hl & Hlr & Hr).
    apply elem_of_paths_inner in Hin as [(p' & -> & Hin)|(p' & -> & Hin)]; simpl.
    + rewrite fill_codes_notin.
      * rewrite (IHl _ _ c p'); [|done..|by destruct cur].
        by rewrite <-(assoc app).
      * intros (c' & ? & Hc')%list_elem_of_fmap. simplify_eq.
        eapply Hlr; [|done]. by eapply elem_of_paths_leaves.
    + rewrite (IHr _ _ c p'); [|done..|by destruct cur].
      by rewrite <-(assoc app).
Qed.

(** The walks to two different leaves: neither is a prefix of the other. *)
Lemma paths_prefix_free t : ∀ c1 p1 c2 p2,
  NoDup (leaves t) → (c1, p1) ∈ paths t → (c2, p2) ∈ paths t →
  c1 ≠ c2 → ¬ p1 `prefix_of` p2.
Proof.
  induction t as [c0 f|f l IHl r IHr]; intros c1 p1 c2 p2 Hnd H1 H2 Hne.
  - simpl in *. apply list_elem_of_singleton in H1, H2. congruence.
  - simpl in Hnd. apply NoDup_app in Hnd as (Hl & Hlr & Hr).
    apply elem_of_paths_inner in H1 as [(q1 & -> & H1)|(q1 & -> & H1)];
    apply elem_of_paths_inner in H2 as [(q2 & -> & H2)|(q2 & -> & H2)].
    + intros Hp%prefix_cons_inv_2. by eapply (IHl c1 q1 c2 q2).
    + by intros Hp%prefix_cons_inv_1.
    + by intros Hp%prefix_cons_inv_1.
    + intros Hp%prefix_cons_inv_2. by eapply (IHr c1 q1 c2 q2).
Qed.

Module codec.
Import HuffmanAlgorithm.

Lemma generate_codes_None root cur σ :
  generate_codes root cur None σ =
  generate_codes root cur (Some (length σ)) (σ ++ [∅]).
Proof. by destruct root. Qed.

(** On a tree, [generate_codes] raises nothing and mutates only the dict it
    was handed. *)
Lemma generate_codes_tree t : ∀ cur l (σ : store) (d : dict),
  σ !! l = Some d →
  generate_codes (node_of t) cur (Some l) σ = (<[l := fill_codes t cur d]> σ, Ok l).
Proof.
  induction t as [c f|f lt IHl rt IHr]; intros cur l σ d Hl; simpl.
  - case_decide; by erewrite dict_setitem_lookup.
  - erewrite IHl by done.
    erewrite IHr; cycle 1.
    { apply list_lookup_insert_eq. by eapply lookup_lt_Some. }
    f_equal. apply list_insert_insert_eq.
Qed.

Lemma generate_codes_call_tree (t : tree) (σ : store) (d : dict) :
  σ !! default_codes = Some d →
  generate_codes_call (node_of t) σ
  = (<[default_codes := fill_codes t [] d]> σ, Ok default_codes).
Proof. apply (generate_codes_tree t [] default_codes). Qed.

(** With [codes=None] as the default, every call writes into a dict of its
    own. *)
Lemma generate_codes2_call_tree (t : tree) (σ : store) :
  HuffmanAlgorithm2.generate_codes_call (node_of t) σ
  = (σ ++ [fill_codes t [] ∅], Ok (length σ)).
Proof.
  unfold HuffmanAlgorithm2.generate_codes_call.
  change HuffmanAlgorithm2.generate_codes with generate_codes.
  rewrite generate_codes_None.
  rewrite (generate_codes_tree t (lit "") (length σ) (σ ++ [∅]) ∅).
  - f_equal. rewrite insert_app_r_alt, Nat.sub_diag by done. done.
  - by rewrite lookup_app_r, Nat.sub_diag.
Qed.

Lemma decode_loop_path root s : ∀ c p rest res,
  is_inner s → (c, p) ∈ paths s →
  decode_loop root (p ++ rest) res (node_of s) =
  decode_loop root rest (res ++ [c]) root.
Proof.
  induction s as [c0 f|f l IHl r IHr]; intros c p rest res Hs Hin; [done|].
  apply elem_of_paths_inner in Hin as [(p' & -> & Hin)|(p' & -> & Hin)]; simpl.
  - destruct l as [c0 f0|f0 l1 l2].
    + simpl in Hin. apply list_elem_of_singleton in Hin. by simplify_eq.
    + by apply IHl.
  - destruct r as [c0 f0|f0 r1 r2].
    + simpl in Hin. apply list_elem_of_singleton in Hin. by simplify_eq.
    + by apply IHr.
Qed.

Lemma encode_text_Ok (text : str) (codes : dict) :
  (∀ c, c ∈ text → is_Some (codes !! Some c)) →
  encode_text text codes = Ok (text ≫= λ c, default [] (codes !! Some c)).
Proof.
  induction text as [|c text IH]; intros Hall; simpl; [done|].
  destruct (Hall c) as [code ->]; [by left|].
  rewrite IH; [done|]. intros c' Hc'. apply Hall. by right.
Qed.

Lemma encode_text_KeyError (text : str) (codes : dict) (c : ascii) :
  c ∈ text → codes !! Some c = None → encode_text text codes = Raise KeyError.
Proof.
  intros Hin Hc. induction text as [|c' text IH]; [by apply elem_of_nil in Hin|].
  simpl. destruct (codes !! Some c') as [code|] eqn:Hc'; [|done].
  apply elem_of_cons in Hin as [->|Hin]; [congruence|].
  by rewrite IH.
Qed.

End codec.

(** ** [Counter]: one entry per distinct symbol, holding its count *)

Lemma counter_incr_keys c tbl :
  (counter_incr c tbl).*1 = if decide (c ∈ tbl.*1) then tbl.*1 else tbl.*1 ++ [c].
Proof.
  induction tbl as [|[k v] tbl IH]; csimpl; [done|].
  destruct (decide (k = c)) as [->|Hne]; csimpl.
  - rewrite decide_True; [done|by left].
  - rewrite IH. destruct (decide (c ∈ tbl.*1)) as [Hin|Hin].
    + rewrite decide_True; [done|by right].
    + rewrite decide_False; [done|].
      intros [ -> |?]%elem_of_cons; done.
Qed.

Lemma counter_incr_sum g c tbl :
  weighted_sum g (counter_incr c tbl) = (weighted_sum g tbl + g c)%Z.
Proof.
  induction tbl as [|[k v] tbl IH]; simpl; [lia|].
  destruct (decide (k = c)) as [->|Hne]; simpl; [lia|].
  rewrite IH. lia.
Qed.

Lemma counter_incr_pos c tbl :
  Forall (λ e, (0 < e.2)%Z) tbl → Forall (λ e, (0 < e.2)%Z) (counter_incr c tbl).
Proof.
  induction 1 as [|[k v] tbl Hv Htbl IH]; simpl.
  - by repeat constructor.
  - destruct (decide (k = c)); constructor; simpl in *; first [lia|done].
Qed.

Lemma Counter_from text : ∀ tbl g,
  let tbl' := fold_left (λ tbl c, counter_incr c tbl) text tbl in
  (NoDup tbl.*1 → NoDup tbl'.*1)
  ∧ (∀ c, c ∈ tbl'.*1 ↔ c ∈ tbl.*1 ∨ c ∈ text)
  ∧ (Forall (λ e, (0 < e.2)%Z) tbl → Forall (λ e, (0 < e.2)%Z) tbl')
  ∧ weighted_sum g tbl' = (weighted_sum g tbl + total g text)%Z.
Proof.
  induction text as [|c text IH]; intros tbl g; simpl.
  - split_and!; [done| |done|lia]. intros c. rewrite elem_of_nil. tauto.
  - destruct (IH (counter_incr c tbl) g) as (Hnd & Hin & Hpos & Hsum).
    split_and!.
    + intros Htbl. apply Hnd. rewrite counter_incr_keys.
      case_decide; [done|]. apply NoDup_app. split_and!; [done| |apply NoDup_singleton].
      by intros x Hx ->%list_elem_of_singleton.
    + intros x. rewrite Hin, counter_incr_keys, elem_of_cons.
      case_decide as Hc; [|rewrite elem_of_app, list_elem_of_singleton].
      * split; [tauto|]. intros [?|[ -> |?]]; tauto.
      * split; [intros [[?| -> ]|?]|intros [?|[ -> |?]]]; tauto.
    + intros Htbl. by apply Hpos, counter_incr_pos.
    + rewrite Hsum, counter_incr_sum. lia.
Qed.

Lemma Counter_NoDup text : NoDup (Counter text).*1.
Proof. apply (Counter_from text [] (λ _, 0%Z)). constructor. Qed.

Lemma elem_of_Counter text c : c ∈ (Counter text).*1 ↔ c ∈ text.
Proof.
  destruct (Counter_from text [] (λ _, 0%Z)) as (_ & Hin & _).
  unfold Counter. rewrite Hin. simpl. rewrite elem_of_nil. tauto.
Qed.

Lemma Counter_pos text : Forall (λ e, (0 < e.2)%Z) (Counter text).
Proof. apply (Counter_from text [] (λ _, 0%Z)). constructor. Qed.

Lemma Counter_sum g text : weighted_sum g (Counter text) = total g text.
Proof.
  destruct (Counter_from text [] g) as (_ & _ & _ & Hsum).
  unfold Counter. rewrite Hsum. simpl. lia.
Qed.

Lemma Counter_nonempty text : text ≠ [] → Counter text ≠ [].
Proof.
  destruct text as [|c text]; [done|]. intros _ Heq.
  assert (c ∈ (Counter (c :: text)).*1) as Hin by (apply elem_of_Counter; by left).
  rewrite Heq in Hin. by apply elem_of_nil in Hin.
Qed.

(** ** The tree of a frequency table *)

Lemma leaves_leaf_of (tbl : list (ascii * Z)) : (leaf_of <$> tbl) ≫= leaves = tbl.*1.
Proof. induction tbl as [|[c f] tbl IH]; csimpl; [done|]. by rewrite IH. Qed.

Lemma build_huffman_tree_tree freq_table :
  freq_table ≠ [] →
  ∃ t, HuffmanAlgorithm.build_huffman_tree freq_table = Ok (node_of t)
    ∧ leaves t ≡ₚ freq_table.*1
    ∧ (2 ≤ length freq_table → is_inner t)
    ∧ (∀ e, freq_table = [e] → t = leaf_of e).
Proof.
  intros Hne.
  destruct (build.build_huffman_tree_run freq_table Hne) as (t & ts & Hb & Hperm & Hrun).
  exists t. split_and!; [done|..].
  - by rewrite (huffman_run_leaves _ _ Hrun), Hperm, leaves_leaf_of.
  - intros Hlen. destruct (huffman_run_shape _ _ Hrun) as [->|]; [|done].
    apply Permutation_length in Hperm. rewrite length_fmap in Hperm.
    simpl in Hperm. lia.
  - intros e ->. simpl in Hperm. apply Permutation_singleton_r in Hperm as ->.
    inversion Hrun as [|?????? Hp]; [done|].
    apply Permutation_length in Hp. simpl in Hp. lia.
Qed.

(** ** Encoding then decoding over a tree *)
Module roundtrip.
Import HuffmanAlgorithm.

Lemma fill_codes_lookup t d c :
  NoDup (leaves t) → c ∈ leaves t →
  ∃ code, fill_codes t [] d !! Some c = Some code ∧ code ≠ []
    ∧ (is_inner t → (c, code) ∈ paths t).
Proof.
  intros Hnd Hc. destruct t as [c0 f|f l r].
  - simpl in *. apply list_elem_of_singleton in Hc as ->.
    exists (lit "0"). by rewrite lookup_insert_eq.
  - destruct (elem_of_leaves_paths _ _ Hc) as [p Hp].
    pose proof (paths_inner_nonempty (Inner f l r) _ _ I Hp) as Hne.
    exists p. split_and!; [|done..].
    by rewrite (fill_codes_path _ [] d c p).
Qed.

Lemma decode_encode_inner t d : ∀ text res,
  is_inner t → NoDup (leaves t) → (∀ c, c ∈ text → c ∈ leaves t) →
  ∃ encoded, encode_text text (fill_codes t [] d) = Ok encoded
    ∧ decode_loop (node_of t) encoded res (node_of t) = Ok (res ++ text).
Proof.
  intros text res Ht Hnd. revert res.
  induction text as [|c text IH]; intros res Hall; simpl.
  - exists []. by rewrite app_nil_r.
  - destruct (fill_codes_lookup t d c Hnd) as (code & -> & _ & Hp); [apply Hall; by left|].
    destruct (IH (res ++ [c])) as (encoded & -> & Hdec).
    { intros c' Hc'. apply Hall. by right. }
    exists (code ++ encoded). split; [done|].
    rewrite (codec.decode_loop_path _ t c code) by auto.
    by rewrite Hdec, <-(assoc app).
Qed.

Lemma encode_single (c b : ascii) (codes : dict) : ∀ text : str,
  codes !! Some c = Some [b] → (∀ c', c' ∈ text → c' = c) →
  encode_text text codes = Ok (replicate (length text) b)
  ∧ text = replicate (length text) c.
Proof.
  intros text Hc. induction text as [|c' text IH]; intros Hall; [done|].
  assert (c' = c) as -> by (apply Hall; by left). simpl. rewrite Hc.
  destruct IH as [-> <-]; [|done]. intros c' Hc'. apply Hall. by right.
Qed.

Lemma decode_encode_tree t d (text : str) :
  NoDup (leaves t) → (∀ c, c ∈ text → c ∈ leaves t) →
  ∃ encoded, encode_text text (fill_codes t [] d) = Ok encoded
    ∧ decode_text encoded (node_of t) = Ok text.
Proof.
  intros Hnd Hall. destruct t as [c f|f l r].
  - destruct (encode_single c "0" (fill_codes (Leaf c f) [] d) text)
      as [Henc Htext].
    { simpl. by rewrite lookup_insert_eq. }
    { intros c' Hc'%Hall. simpl in Hc'. by apply list_elem_of_singleton in Hc'. }
    eexists. split; [done|]. unfold decode_text. simpl.
    by rewrite length_replicate, <-Htext.
  - destruct (decode_encode_inner (Inner f l r) d text [] I Hnd Hall)
      as (encoded & Henc & Hdec).
    by exists encoded.
Qed.

End roundtrip.

(** ** Entries of a generated table are walks of the tree *)

Lemma fill_codes_lookup_inv t : ∀ cur (d : dict) (k : option ascii) (v : str),
  fill_codes t cur d !! k = Some v →
  d !! k = Some v ∨
  ∃ c p, k = Some c ∧ (c, p) ∈ paths t
    ∧ v = if decide (cur ++ p = []) then lit "0" else cur ++ p.
Proof.
  induction t as [c0 f|f l IHl r IHr]; intros cur d k v Hk; simpl in Hk.
  - destruct (decide (k = Some c0)) as [->|Hne].
    + rewrite lookup_insert_eq in Hk. right. exists c0, []. simplify_eq.
      rewrite app_nil_r. split_and!; [done|by left|done].
    + rewrite lookup_insert_ne in Hk by done. by left.
  - apply IHr in Hk as [Hk|(c & p & -> & Hp & ->)].
    + apply IHl in Hk as [Hk|(c & p & -> & Hp & ->)]; [by left|right].
      exists c, ("0"%char :: p). split_and!; [done|apply elem_of_paths_inner; eauto|].
      rewrite (decide_False (P := cur ++ _ = [])) by (by destruct cur).
      rewrite decide_False by (by destruct cur).
      by rewrite <-(assoc app).
    + right. exists c, ("1"%char :: p).
      split_and!; [done|apply elem_of_paths_inner; eauto|].
      rewrite (decide_False (P := cur ++ _ = [])) by (by destruct cur).
      rewrite decide_False by (by destruct cur).
      by rewrite <-(assoc app).
Qed.

Lemma fill_codes_prefix_free t (k1 k2 : option ascii) (c1 c2 : str) :
  NoDup (leaves t) →
  fill_codes t [] ∅ !! k1 = Some c1 → fill_codes t [] ∅ !! k2 = Some c2 →
  k1 ≠ k2 → ¬ c1 `prefix_of` c2.
Proof.
  intros Hnd H1 H2 Hne.
  apply fill_codes_lookup_inv in H1 as [H1|(s1 & p1 & -> & Hp1 & ->)]; [done|].
  apply fill_codes_lookup_inv in H2 as [H2|(s2 & p2 & -> & Hp2 & ->)]; [done|].
  destruct t as [c0 f|f l r].
  - simpl in Hp1, Hp2. apply list_elem_of_singleton in Hp1, Hp2. congruence.
  - pose proof (paths_inner_nonempty (Inner f l r) _ _ I Hp1).
    pose proof (paths_inner_nonempty (Inner f l r) _ _ I Hp2).
    simpl. rewrite !decide_False by done.
    apply (paths_prefix_free (Inner f l r) s1 p1 s2 p2); [done..|congruence].
Qed.

(** ** Decoding over a tree never fails *)
Module decoding.
Import HuffmanAlgorithm.

Lemma decode_loop_partial root s : ∀ c q p res,
  (c, q) ∈ paths s → p `prefix_of` q → p ≠ q →
  decode_loop root p res (node_of s) = Ok res.
Proof.
  induction s as [c0 f|f l IHl r IHr]; intros c q p res Hq Hp Hne.
  - simpl in Hq. apply list_elem_of_singleton in Hq. simplify_eq.
    by apply prefix_nil_inv in Hp.
  - destruct p as [|b p]; [done|].
    apply elem_of_paths_inner in Hq as [(q' & -> & Hq)|(q' & -> & Hq)];
      pose proof (prefix_cons_inv_1 _ _ _ _ Hp) as ->;
      apply prefix_cons_inv_2 in Hp; simpl.
    + destruct l as [c0 f0|f0 l1 l2].
      * simpl in Hq. apply list_elem_of_singleton in Hq. simplify_eq.
        by apply prefix_nil_inv in Hp as ->.
      * apply (IHl c q'); [done..|congruence].
    + destruct r as [c0 f0|f0 r1 r2].
      * simpl in Hq. apply list_elem_of_singleton in Hq. simplify_eq.
        by apply prefix_nil_inv in Hp as ->.
      * apply (IHr c q'); [done..|congruence].
Qed.

Lemma decode_loop_total t : is_inner t → ∀ bits res s,
  is_inner s → ∃ out, decode_loop (node_of t) bits res (node_of s) = Ok out.
Proof.
  intros Ht bits. induction bits as [|b bits IH]; intros res s Hs; simpl.
  - by exists res.
  - destruct s as [|f l r]; [done|]. simpl.
    destruct (decide (b = "0"%char)).
    + destruct l as [c0 f0|f0 l1 l2]; simpl; [by apply IH|by apply (IH _ (Inner _ _ _))].
    + destruct r as [c0 f0|f0 r1 r2]; simpl; [by apply IH|by apply (IH _ (Inner _ _ _))].
Qed.

Lemma decode_loop_as_bit root : ∀ bits res current,
  decode_loop root bits res current = decode_loop root (as_bit <$> bits) res current.
Proof.
  induction bits as [|b bits IH]; intros res current; csimpl; [done|].
  assert ((if decide (as_bit b = "0"%char) then left current else right current)
          = (if decide (b = "0"%char) then left current else right current)) as ->.
  { unfold as_bit. destruct (decide (b = "0"%char)); by simpl. }
  destruct (if decide (b = "0"%char) then left current else right current)
    as [current1|]; [|done].
  destruct (char current1); apply IH.
Qed.

Lemma decode_text_as_bit bits root :
  decode_text bits root = decode_text (as_bit <$> bits) root.
Proof.
  unfold decode_text. rewrite length_fmap.
  destruct (left root), (right root); try apply decode_loop_as_bit. done.
Qed.

(** What has been emitted so far is only ever extended. *)
Lemma decode_loop_acc root : ∀ (bits res : str) (current : Node),
  decode_loop root bits res current
  = (out ← decode_loop root bits [] current; Ok (res ++ out)).
Proof.
  induction bits as [|b bits IH]; intros res current; simpl.
  - by rewrite app_nil_r.
  - destruct (if decide (b = "0"%char) then left current else right current)
      as [current1|]; [|done].
    destruct (char current1) as [c|]; [|apply IH].
    rewrite (IH (res ++ [c])), (IH [c]).
    destruct (decode_loop root bits [] root) as [out| |]; simpl; [|done..].
    by rewrite <-(assoc app).
Qed.

End decoding.

(** ** Optimality of the greedy merging

    Stated on weights and code words alone: whatever two least weights are
    merged at each step, the sum of the merged weights is at most the cost
    of any assignment of prefix-free code words to the weights. *)
Module optimal_facts.
Import optimal.

Local Open Scope Z_scope.

Lemma Zsum_app l1 l2 : Zsum (l1 ++ l2) = Zsum l1 + Zsum l2.
Proof. induction l1 as [|x l1 IH]; simpl; lia. Qed.

#[export] Instance Zsum_perm : Proper ((≡ₚ) ==> (=)) Zsum.
Proof. induction 1; simpl; lia. Qed.

#[export] Instance acost_perm : Proper ((≡ₚ) ==> (=)) acost.
Proof. intros A B HAB. unfold acost. by rewrite HAB. Qed.

#[export] Instance total_len_perm : Proper ((≡ₚ) ==> (=)) total_len.
Proof. intros A B HAB. unfold total_len. by rewrite HAB. Qed.

Lemma acost_cons w c A : acost ((w, c) :: A) = w * Z.of_nat (length c) + acost A.
Proof. done. Qed.

Lemma total_len_cons w c A : total_len ((w, c) :: A) = (length c + total_len A)%nat.
Proof. done. Qed.

Lemma incomp_sym c c' : incomp c c' → incomp c' c.
Proof. intros [??]. by split. Qed.

#[export] Instance prefix_free_perm : Proper ((≡ₚ) ==> iff) prefix_free.
Proof.
  assert (∀ cs cs', cs ≡ₚ cs' → prefix_free cs → prefix_free cs') as Himp.
  { induction 1 as [|c cs cs' Hp IH|c c' cs|cs1 cs2 cs3 _ IH1 _ IH2]; simpl.
    - done.
    - intros [Hc Hcs]. split; [by rewrite <-Hp|by apply IH].
    - intros [Hc' [Hc Hcs]]. apply Forall_cons in Hc' as [Hcc' Hc'].
      split_and!; [|done..]. constructor; [by apply incomp_sym|done].
    - intros Hcs. by apply IH2, IH1. }
  intros cs cs' Hp. split; apply Himp; [done|by symmetry].
Qed.

Lemma prefix_free_cons c cs :
  prefix_free (c :: cs) ↔ Forall (incomp c) cs ∧ prefix_free cs.
Proof. done. Qed.

(** An entry whose code word is longest. *)
Lemma longest_entry (A : list (Z * word)) :
  A ≠ [] →
  ∃ e B, A ≡ₚ e :: B ∧ Forall (λ e', (length e'.2 ≤ length e.2)%nat) B.
Proof.
  induction A as [|e0 A IH]; [done|]. intros _.
  destruct A as [|e1 A]; [by exists e0, []|].
  destruct IH as (e & B & HB & Hlen); [done|].
  destruct (decide (length e0.2 ≤ length e.2)%nat) as [Hle|Hgt].
  - exists e, (e0 :: B). split; [|by constructor].
    rewrite HB. apply perm_swap.
  - exists e0, (e1 :: A). split; [done|]. rewrite HB.
    constructor; [lia|]. eapply Forall_impl; [done|]. simpl. lia.
Qed.

(** Giving a least weight [a] to a longest code word [c] costs no more. *)
Lemma extract_least (A : list (Z * word)) (a : Z) (c : word) :
  a ∈ A.*1 → (∀ w, w ∈ A.*1 → a ≤ w) →
  c ∈ A.*2 → (∀ c', c' ∈ A.*2 → (length c' ≤ length c)%nat) →
  ∃ A1, a :: A1.*1 ≡ₚ A.*1 ∧ c :: A1.*2 ≡ₚ A.*2
    ∧ a * Z.of_nat (length c) + acost A1 ≤ acost A.
Proof.
  intros Ha Hmin Hc Hmax.
  apply list_elem_of_fmap in Hc as ([w c0] & -> & Hc). simpl in *.
  apply elem_of_Permutation in Hc as [B HB].
  destruct (decide (a = w)) as [->|Hne].
  { exists B. rewrite HB. split_and!; [done..|]. rewrite acost_cons. lia. }
  rewrite HB in Ha. csimpl in Ha. apply elem_of_cons in Ha as [?|Ha]; [done|].
  apply list_elem_of_fmap in Ha as ([a0 c'] & -> & Ha). simpl in *.
  apply elem_of_Permutation in Ha as [B' HB'].
  exists ((w, c') :: B'). rewrite HB, HB'. csimpl. split_and!.
  - apply perm_swap.
  - done.
  - rewrite !acost_cons.
    assert (a0 ≤ w).
    { apply Hmin. rewrite HB. csimpl. by left. }
    assert (length c' ≤ length c0)%nat.
    { apply Hmax. rewrite HB, HB'. csimpl. right. by left. }
    nia.
Qed.

Lemma snoc_word (c : word) : c ≠ [] → ∃ p x, c = p ++ [x].
Proof.
  intros Hne. destruct (exists_last Hne) as (p & x & ->). eauto.
Qed.

(** Shortening a longest code word [p ++ [x]] to [p] keeps a code
    prefix-free when the other words avoid [p ++ [negb x]]. *)
Lemma incomp_shorten (p : word) (x : bool) (c' : word) :
  incomp (p ++ [x]) c' → (length c' ≤ length (p ++ [x]))%nat →
  c' ≠ p ++ [negb x] → incomp p c'.
Proof.
  intros [Hc1 Hc2] Hlen Hs. split.
  - intros [r ->]. rewrite !length_app in Hlen. simpl in Hlen.
    destruct r as [|y [|??]]; [| |simpl in Hlen; lia].
    + apply Hc2. rewrite app_nil_r. by apply prefix_app_r.
    + destruct (decide (y = x)) as [->|Hy]; [by apply Hc1|].
      apply Hs. by destruct x, y.
  - intros Hp. apply Hc2. by apply prefix_app_r.
Qed.

(** The exchange step: from a prefix-free assignment over weights whose two
    least are [a] and [b], one over the weights with [a] and [b] merged that
    is cheaper by at least [a + b]. *)
Lemma merge_two (n : nat) : ∀ (A : list (Z * word)) (a b : Z) (rest : list Z),
  (total_len A < n)%nat →
  prefix_free A.*2 → Forall (λ w, 0 ≤ w) A.*1 →
  A.*1 ≡ₚ a :: b :: rest →
  (∀ u, u ∈ b :: rest → a ≤ u) → (∀ u, u ∈ rest → b ≤ u) →
  ∃ A', prefix_free A'.*2 ∧ A'.*1 ≡ₚ (a + b) :: rest
    ∧ acost A' + a + b ≤ acost A.
Proof.
  induction n as [|n IH]; intros A a b rest Hn Hpf Hpos Hw Ha Hb; [lia|].
  destruct (longest_entry A) as ([w c] & B & HA & Hlong).
  { intros ->. by apply Permutation_nil_cons in Hw. }
  simpl in Hlong.
  assert (B ≠ []) as HB.
  { intros ->. rewrite HA in Hw. apply Permutation_length in Hw. done. }
  rewrite HA in Hpf. csimpl in Hpf. destruct Hpf as [Hinc HpfB].
  destruct (snoc_word c) as (p & x & ->).
  { intros ->. destruct B as [|[w1 c1] B]; [done|].
    apply Forall_cons in Hinc as [[Hn1 _] _]. apply Hn1, prefix_nil. }
  destruct (decide (p ++ [negb x] ∈ B.*2)) as [Hs|Hs].
  - destruct (extract_least A a (p ++ [x])) as (A1 & Hw1 & Hc1 & Hcost1).
    { rewrite Hw. by left. }
    { intros u. rewrite Hw. intros [->|Hu]%elem_of_cons; [lia|by apply Ha]. }
    { rewrite HA. csimpl. by left. }
    { intros c'. rewrite HA. csimpl. intros [->|Hc']%elem_of_cons; [done|].
      apply list_elem_of_fmap in Hc' as (e & -> & He).
      by apply (proj1 (Forall_forall _ _) Hlong). }
    rewrite Hw in Hw1. apply Permutation_cons_inv in Hw1.
    rewrite HA in Hc1. csimpl in Hc1. apply Permutation_cons_inv in Hc1.
    destruct (extract_least A1 b (p ++ [negb x])) as (A2 & Hw2 & Hc2 & Hcost2).
    { rewrite Hw1. by left. }
    { intros u. rewrite Hw1. intros [->|Hu]%elem_of_cons; [lia|by apply Hb]. }
    { by rewrite Hc1. }
    { intros c'. rewrite Hc1. intros (e & -> & He)%list_elem_of_fmap.
      pose proof (proj1 (Forall_forall _ _) Hlong e He) as Hle.
      rewrite !length_app in *. simpl in *. lia. }
    rewrite Hw1 in Hw2. apply Permutation_cons_inv in Hw2.
    rewrite Hc1 in Hc2.
    exists ((a + b, p) :: A2). csimpl. split; [|split].
    + rewrite <-Hc2 in Hinc, HpfB. destruct HpfB as [Hinc' Hpf2].
      apply Forall_cons in Hinc as [_ Hinc]. apply prefix_free_cons. split; [|done].
      apply Forall_forall. intros c' Hc'.
      apply (incomp_shorten p x).
      * by apply (proj1 (Forall_forall _ _) Hinc).
      * assert (c' ∈ B.*2) as (e & -> & He)%list_elem_of_fmap
          by (rewrite <-Hc2; by right).
        by apply (proj1 (Forall_forall _ _) Hlong e He).
      * intros ->. pose proof (proj1 (Forall_forall _ _) Hinc' _ Hc') as [Hn1 _].
        by apply Hn1.
    + by rewrite Hw2.
    + rewrite acost_cons. rewrite !length_app in *. simpl in *. lia.
  - destruct (IH ((w, p) :: B) a b rest) as (A' & Hpf' & Hw' & Hcost').
    + rewrite HA, !total_len_cons, length_app in Hn. simpl in Hn.
      rewrite total_len_cons. lia.
    + csimpl. apply prefix_free_cons. split; [|done].
      apply Forall_forall. intros c' Hc'.
      apply (incomp_shorten p x).
      * by apply (proj1 (Forall_forall _ _) Hinc).
      * apply list_elem_of_fmap in Hc' as (e & -> & He).
        by apply (proj1 (Forall_forall _ _) Hlong e He).
      * by intros ->.
    + by rewrite HA in Hpos.
    + by rewrite HA in Hw.
    + done.
    + done.
    + exists A'. split_and!; [done..|].
      rewrite HA, acost_cons. rewrite acost_cons in Hcost'.
      rewrite HA in Hpos. csimpl in Hpos. apply Forall_cons in Hpos as [Hw0 _].
      rewrite length_app. simpl. nia.
Qed.

Theorem hcost_optimal ws k :
  hcost ws k → Forall (λ w, 0 ≤ w) ws →
  ∀ A : list (Z * word), A.*1 ≡ₚ ws → prefix_free A.*2 → k ≤ acost A.
Proof.
  induction 1 as [w|ws a b rest ws' k Hws Ha Hb Hws' _ IH]; intros Hpos A HA Hpf.
  - apply Permutation_singleton_r in HA.
    destruct A as [|[w' c] [|??]]; simplify_eq/=.
    apply Forall_cons in Hpos as [Hw _]. rewrite acost_cons. unfold acost. simpl. nia.
  - destruct (merge_two (S (total_len A)) A a b rest) as (A' & Hpf' & HA' & Hcost);
      [lia|done|by rewrite HA|by rewrite HA|done..|].
    assert (k ≤ acost A'); [|lia].
    apply IH; [|by rewrite HA'|done].
    rewrite Hws'. rewrite Hws in Hpos.
    apply Forall_cons in Hpos as [? Hpos]. apply Forall_cons in Hpos as [? Hpos].
    constructor; [lia|done].
Qed.

End optimal_facts.

(** ** The built tree against any prefix code *)
Module huffman_optimal.
Import HuffmanAlgorithm optimal optimal_facts prefix_code.

Local Open Scope Z_scope.

Lemma weighted_sum_app g l1 l2 :
  weighted_sum g (l1 ++ l2) = weighted_sum g l1 + weighted_sum g l2.
Proof. induction l1 as [|e l1 IH]; simpl; lia. Qed.

#[export] Instance weighted_sum_perm g : Proper ((≡ₚ) ==> (=)) (weighted_sum g).
Proof. induction 1; simpl; lia. Qed.

Lemma weighted_sum_ext g1 g2 (tbl : list (ascii * Z)) :
  (∀ c, c ∈ tbl.*1 → g1 c = g2 c) → weighted_sum g1 tbl = weighted_sum g2 tbl.
Proof.
  induction tbl as [|[c f] tbl IH]; intros Hg; simpl; [done|].
  rewrite IH, (Hg c); [done|by left|]. intros c' Hc'. apply Hg. by right.
Qed.

Lemma entries_leaves t : (entries t).*1 = leaves t.
Proof.
  induction t as [c f|f l IHl r IHr]; simpl; [done|].
  by rewrite fmap_app, IHl, IHr.
Qed.

Lemma huffman_run_entries ts t : huffman_run ts t → entries t ≡ₚ ts ≫= entries.
Proof.
  induction 1 as [t|ts t1 t2 rest ts' t Hp _ _ Hp' _ IH]; simpl.
  - by rewrite app_nil_r.
  - rewrite IH, Hp', Hp. simpl. by rewrite (assoc app).
Qed.

Lemma entries_leaf_of (tbl : list (ascii * Z)) : (leaf_of <$> tbl) ≫= entries = tbl.
Proof. induction tbl as [|[c f] tbl IH]; csimpl; [done|]. by rewrite IH. Qed.

(** The greedy merging of trees is a greedy merging of their weights. *)
Lemma huffman_run_hcost ts t :
  huffman_run ts t → Forall consistent ts →
  consistent t ∧ hcost (weight <$> ts) (cost t - Zsum (cost <$> ts)).
Proof.
  induction 1 as [t|ts t1 t2 rest ts' t Hp Hm1 Hm2 Hp' _ IH]; intros Hc.
  - apply Forall_cons in Hc as [Ht _]. split; [done|].
    simpl. replace (cost t - (cost t + 0)) with 0 by lia. constructor.
  - rewrite Hp in Hc. apply Forall_cons in Hc as [Hc1 Hc].
    apply Forall_cons in Hc as [Hc2 Hc].
    destruct IH as [Ht Hk].
    { rewrite Hp'. by repeat constructor. }
    split; [done|].
    assert (Zsum (cost <$> ts')
            = cost t1 + cost t2 + weight t1 + weight t2 + Zsum (cost <$> rest)) as Hs'.
    { rewrite Hp'. csimpl. lia. }
    assert (Zsum (cost <$> ts) = cost t1 + cost t2 + Zsum (cost <$> rest)) as Hs.
    { rewrite Hp. csimpl. lia. }
    replace (cost t - Zsum (cost <$> ts))
      with (cost t - Zsum (cost <$> ts') + weight t1 + weight t2) by lia.
    eapply (hcost_merge _ (weight t1) (weight t2) (weight <$> rest) (weight <$> ts')).
    + by rewrite Hp.
    + intros u (u' & -> & Hu')%(list_elem_of_fmap weight (t2 :: rest)). by apply Hm1.
    + intros u (u' & -> & Hu')%list_elem_of_fmap. by apply Hm2.
    + by rewrite Hp'.
    + done.
Qed.

(** Summing [count * length of the walk] over the leaves gives the weighted
    path length. *)
Lemma weighted_sum_paths t : ∀ (g : ascii → Z) (k : nat),
  consistent t →
  (∀ c p, (c, p) ∈ paths t → g c = Z.of_nat (k + length p)) →
  weighted_sum g (entries t) = weight t * Z.of_nat k + cost t.
Proof.
  induction t as [c f|f l IHl r IHr]; intros g k Hc Hg; simpl.
  - rewrite (Hg c []); [|by left]. simpl. lia.
  - destruct Hc as (-> & Hl & Hr).
    rewrite weighted_sum_app, (IHl g (S k)), (IHr g (S k)); [lia|done| |done|].
    + intros c p Hp. rewrite (Hg c ("1"%char :: p)); [simpl; lia|].
      apply elem_of_paths_inner. eauto.
    + intros c p Hp. rewrite (Hg c ("0"%char :: p)); [simpl; lia|].
      apply elem_of_paths_inner. eauto.
Qed.

Lemma encode_text_length (codes : dict) : ∀ (text encoded : str),
  encode_text text codes = Ok encoded →
  Z.of_nat (length encoded)
  = total (λ c, Z.of_nat (length (default [] (codes !! Some c)))) text.
Proof.
  induction text as [|c text IH]; intros encoded Henc; simpl in Henc.
  - by simplify_eq.
  - destruct (codes !! Some c) as [code|] eqn:Hc; [|done].
    destruct (encode_text text codes) as [rest| |]; simplify_eq/=.
    rewrite Hc, length_app, <-(IH rest eq_refl). simpl. lia.
Qed.

Lemma to_bit_prefix (c1 c2 : str) :
  binary c1 → binary c2 → (to_bit <$> c1) `prefix_of` (to_bit <$> c2) →
  c1 `prefix_of` c2.
Proof.
  intros H1. revert c2. induction H1 as [|b1 c1 Hb1 _ IH]; intros c2 H2 Hp.
  - apply prefix_nil.
  - destruct H2 as [|b2 c2 Hb2 H2]; csimpl in Hp.
    { by apply prefix_nil_inv in Hp. }
    pose proof (prefix_cons_inv_1 _ _ _ _ Hp) as Hb.
    apply prefix_cons_inv_2 in Hp.
    assert (b1 = b2) as ->.
    { destruct Hb1 as [->| ->], Hb2 as [->| ->]; done. }
    apply prefix_cons. by apply IH.
Qed.

Lemma assignment_weights codes tbl : (assignment codes tbl).*1 = tbl.*2.
Proof.
  unfold assignment. rewrite <-list_fmap_compose. by apply list_fmap_ext.
Qed.

Lemma assignment_cost (codes : dict) (tbl : list (ascii * Z)) :
  acost (assignment codes tbl)
  = weighted_sum (λ c, Z.of_nat (length (default [] (codes !! Some c)))) tbl.
Proof.
  induction tbl as [|[c f] tbl IH]; [done|].
  unfold assignment in *. csimpl. rewrite acost_cons, IH. simpl.
  by rewrite length_fmap.
Qed.

Lemma assignment_prefix_free (codes : dict) (text : str) (tbl : list (ascii * Z)) :
  valid_prefix_code text codes → NoDup tbl.*1 → (∀ c, c ∈ tbl.*1 → c ∈ text) →
  prefix_free (assignment codes tbl).*2.
Proof.
  intros [Hcode Hpf]. induction tbl as [|[c f] tbl IH]; intros Hnd Hin; [done|].
  csimpl in Hnd. apply NoDup_cons in Hnd as [Hc Hnd].
  unfold assignment in *. csimpl. apply prefix_free_cons. split.
  - apply Forall_forall. intros w Hw.
    apply list_elem_of_fmap in Hw as (e & -> & He).
    apply list_elem_of_fmap in He as ([c' f'] & -> & He). simpl.
    assert (c' ∈ tbl.*1) as Hc' by (apply list_elem_of_fmap; by exists (c', f')).
    destruct (Hcode c) as (code & Hcc & _ & Hbin); [apply Hin; by left|].
    destruct (Hcode c') as (code' & Hcc' & _ & Hbin'); [apply Hin; by right|].
    rewrite Hcc, Hcc'. simpl.
    assert (c ≠ c') as Hne by (by intros ->).
    split; intros Hp%to_bit_prefix; try done.
    + eapply (Hpf c c'); [apply Hin; by left|apply Hin; by right|done..].
    + eapply (Hpf c' c); [apply Hin; by right|apply Hin; by left|done..].
  - apply IH; [done|]. intros c' Hc'. apply Hin. by right.
Qed.

Lemma total_ge_length (g : ascii → Z) (text : str) :
  (∀ c, c ∈ text → 1 ≤ g c) → Z.of_nat (length text) ≤ total g text.
Proof.
  induction text as [|c text IH]; intros Hg; simpl; [done|].
  assert (1 ≤ g c) by (apply Hg; by left).
  assert (Z.of_nat (length text) ≤ total g text); [|lia].
  apply IH. intros c' Hc'. apply Hg. by right.
Qed.

Lemma leaf_of_consistent (tbl : list (ascii * Z)) :
  Forall consistent (leaf_of <$> tbl).
Proof. induction tbl; by constructor. Qed.

Lemma leaf_of_cost (tbl : list (ascii * Z)) : Zsum (cost <$> (leaf_of <$> tbl)) = 0.
Proof. induction tbl as [|e tbl IH]; csimpl; [done|]. by rewrite IH. Qed.

Lemma leaf_of_weight (tbl : list (ascii * Z)) : weight <$> (leaf_of <$> tbl) = tbl.*2.
Proof. induction tbl as [|e tbl IH]; csimpl; [done|]. by rewrite IH. Qed.

(** The weighted path length of the tree built from a table of positive
    counts is at most the cost of any prefix-free assignment of code words
    to the counts. *)
Lemma huffman_run_optimal (tbl : list (ascii * Z)) (ts : list tree) (t : tree)
    (A : list (Z * word)) :
  ts ≡ₚ leaf_of <$> tbl → huffman_run ts t →
  Forall (λ e, 0 < e.2) tbl →
  A.*1 ≡ₚ tbl.*2 → prefix_free A.*2 →
  consistent t ∧ cost t ≤ acost A.
Proof.
  intros Hts Hrun Hpos HA Hpf.
  destruct (huffman_run_hcost ts t Hrun) as [Hc Hk].
  { rewrite Hts. apply leaf_of_consistent. }
  split; [done|].
  assert (Zsum (cost <$> ts) = 0) as Hz by (rewrite Hts; apply leaf_of_cost).
  rewrite Hz in Hk. replace (cost t) with (cost t - 0) by lia.
  assert (weight <$> ts ≡ₚ tbl.*2) as Hw by (by rewrite Hts, leaf_of_weight).
  eapply hcost_optimal; [done| |by rewrite HA, Hw|done].
  rewrite Hw. apply Forall_fmap. eapply Forall_impl; [done|]. simpl. lia.
Qed.

(** Length of the encoding under the table of the built tree. *)
Lemma huffman_encoded_length (text : str) (ts : list tree) (t : tree) (d : dict)
    (encoded : str) :
  ts ≡ₚ leaf_of <$> Counter text → huffman_run ts t → is_inner t → consistent t →
  encode_text text (fill_codes t [] d) = Ok encoded →
  Z.of_nat (length encoded) = cost t.
Proof.
  intros Hts Hrun Ht Hc Henc.
  assert (entries t ≡ₚ Counter text) as Hent.
  { by rewrite (huffman_run_entries _ _ Hrun), Hts, entries_leaf_of. }
  assert (NoDup (leaves t)) as Hnd.
  { rewrite <-entries_leaves, Hent. apply Counter_NoDup. }
  rewrite (encode_text_length _ _ _ Henc), <-Counter_sum, <-Hent.
  rewrite (weighted_sum_paths t _ 0 Hc); [lia|].
  intros c p Hp. rewrite (fill_codes_path t [] d c p); [done..|].
  simpl. by eapply paths_inner_nonempty.
Qed.

End huffman_optimal.

(** * The claims *)

Section claims.
Import HuffmanAlgorithm.

(** C1 (round trip). For every non-empty text, building the frequency table,
    the tree and the code table, encoding the text and decoding the result
    with the tree gives the text back. The code table is the one a call
    [generate_codes(root)] returns, whatever the default dict holds from
    earlier calls. *)
Theorem round_trip (text : str) (σ : store) (d : dict) :
  text ≠ [] → σ !! default_codes = Some d →
  ∃ root σ' codes encoded,
    build_huffman_tree (build_frequency_table text) = Ok root
    ∧ generate_codes_call root σ = (σ', Ok default_codes)
    ∧ σ' !! default_codes = Some codes
    ∧ encode_text text codes = Ok encoded
    ∧ decode_text encoded root = Ok text.
Proof.
  intros Htext Hd. unfold build_frequency_table.
  destruct (build_huffman_tree_tree (Counter text)) as (t & Hbuild & Hleaves & _).
  { by apply Counter_nonempty. }
  destruct (roundtrip.decode_encode_tree t d text) as (encoded & Henc & Hdec).
  { rewrite Hleaves. apply Counter_NoDup. }
  { intros c Hc. rewrite Hleaves. by apply elem_of_Counter. }
  exists (node_of t), (<[default_codes := fill_codes t [] d]> σ),
    (fill_codes t [] d), encoded.
  split_and!; [done| |..|done|done].
  - by apply codec.generate_codes_tree.
  - apply list_lookup_insert_eq. by eapply lookup_lt_Some.
Qed.

Lemma round_trip_witness :
  lit "Huffman Coding" ≠ [] ∧ initial_store !! default_codes = Some ∅ ∧
  ∃ root σ' codes encoded,
    build_huffman_tree (build_frequency_table (lit "Huffman Coding")) = Ok root
    ∧ generate_codes_call root initial_store = (σ', Ok default_codes)
    ∧ σ' !! default_codes = Some codes
    ∧ encode_text (lit "Huffman Coding") codes = Ok encoded
    ∧ decode_text encoded root = Ok (lit "Huffman Coding").
Proof.
  split; [discriminate|]. split; [reflexivity|].
  apply (round_trip (lit "Huffman Coding") initial_store ∅); [discriminate|reflexivity].
Defined.

(** C2 (prefix freedom), evaluated on HuffmanAlgorithm.py: after a first
    call on the tree of ["ab"], the call [generate_codes(root)] on the tree
    of ["cdde"] returns a table that still holds the codes of the first
    call, and in it the code ['1'] of [a] is a proper prefix of the code
    ['11'] of [c]; HuffmanAlgorithm2.py returns the three codes of the tree,
    ['0'], ['10'] and ['11']. *)
Theorem prefix_freedom_violated :
  ∃ root1 root2 σ1 σ2 codes,
    build_huffman_tree (build_frequency_table (lit "ab")) = Ok root1
    ∧ build_huffman_tree (build_frequency_table (lit "cdde")) = Ok root2
    ∧ generate_codes_call root1 initial_store = (σ1, Ok default_codes)
    ∧ generate_codes_call root2 σ1 = (σ2, Ok default_codes)
    ∧ σ2 !! default_codes = Some codes
    ∧ codes = {[Some "b"%char := lit "0"; Some "a"%char := lit "1";
                Some "d"%char := lit "0"; Some "e"%char := lit "10";
                Some "c"%char := lit "11"]}
    ∧ codes !! Some "a"%char = Some (lit "1")
    ∧ codes !! Some "c"%char = Some (lit "11")
    ∧ lit "1" `prefix_of` lit "11" ∧ lit "1" ≠ lit "11"
    ∧ ∃ τ1 l1 τ2 l2,
        HuffmanAlgorithm2.generate_codes_call root1 HuffmanAlgorithm2.initial_store
          = (τ1, Ok l1)
        ∧ HuffmanAlgorithm2.generate_codes_call root2 τ1 = (τ2, Ok l2)
        ∧ τ2 !! l2 = Some {[Some "d"%char := lit "0"; Some "e"%char := lit "10";
                            Some "c"%char := lit "11"]}.
Proof.
  eexists _, _, _, _, _. split_and!; try (vm_compute; reflexivity).
  - by exists (lit "1").
  - discriminate.
  - eexists _, _, _, _. split_and!; vm_compute; reflexivity.
Qed.

(** C3 (optimality). For every non-empty text and every code table that
    gives the symbols of the text non-empty codes over ['0'] and ['1'] none
    of which is a prefix of the code of another symbol, the encoding of the
    text under the table generated from the built tree is no longer than
    its encoding under that table. *)
Theorem optimality (text : str) (σ : store) (d other : dict) :
  text ≠ [] → σ !! default_codes = Some d →
  prefix_code.valid_prefix_code text other →
  ∃ root σ' codes encoded encoded',
    build_huffman_tree (build_frequency_table text) = Ok root
    ∧ generate_codes_call root σ = (σ', Ok default_codes)
    ∧ σ' !! default_codes = Some codes
    ∧ encode_text text codes = Ok encoded
    ∧ encode_text text other = Ok encoded'
    ∧ length encoded ≤ length encoded'.
Proof.
  intros Htext Hd Hvalid. unfold build_frequency_table.
  destruct (build.build_huffman_tree_run (Counter text)) as (t & ts & Hbuild & Hts & Hrun).
  { by apply Counter_nonempty. }
  assert (leaves t ≡ₚ (Counter text).*1) as Hleaves.
  { by rewrite (huffman_run_leaves _ _ Hrun), Hts, leaves_leaf_of. }
  destruct (roundtrip.decode_encode_tree t d text) as (encoded & Henc & _).
  { rewrite Hleaves. apply Counter_NoDup. }
  { intros c Hc. rewrite Hleaves. by apply elem_of_Counter. }
  pose proof Hvalid as [Hcode _].
  pose proof (codec.encode_text_Ok text other) as Henc'.
  rewrite Henc'; cycle 1.
  { intros c Hc. destruct (Hcode c Hc) as (code & -> & _). by eexists. }
  clear Henc'.
  set (encoded' := text ≫= λ c, default [] (other !! Some c)).
  assert (encode_text text other = Ok encoded') as Henc'.
  { apply codec.encode_text_Ok. intros c Hc.
    destruct (Hcode c Hc) as (code & -> & _). by eexists. }
  exists (node_of t), (<[default_codes := fill_codes t [] d]> σ),
    (fill_codes t [] d), encoded, encoded'.
  split_and!; [done|by apply codec.generate_codes_call_tree| |done|done|].
  { apply list_lookup_insert_eq. by eapply lookup_lt_Some. }
  apply Nat2Z.inj_le.
  rewrite (huffman_optimal.encode_text_length _ _ _ Henc').
  destruct (huffman_run_shape _ _ Hrun) as [->|Ht].
  - (* a single symbol: every code has at least one bit *)
    apply Permutation_singleton_l in Hts.
    destruct (Counter text) as [|[c f] [|??]] eqn:Htbl; simplify_eq/=.
    destruct (roundtrip.encode_single c "0" (<[Some c := lit "0"]> d) text) as [He _].
    { by rewrite lookup_insert_eq. }
    { intros c' Hc'%elem_of_Counter. rewrite Htbl in Hc'. simpl in Hc'.
      by apply list_elem_of_singleton in Hc'. }
    assert (Ok encoded = Ok (replicate (length text) "0"%char)) as Heq
      by (rewrite <-Henc; exact He).
    apply Ok_inj in Heq as ->. rewrite length_replicate.
    apply huffman_optimal.total_ge_length. intros c' Hc'.
    destruct (Hcode c' Hc') as (code & -> & Hne & _). simpl.
    destruct code; [done|simpl; lia].
  - destruct (huffman_optimal.huffman_run_optimal (Counter text) ts t
                (prefix_code.assignment other (Counter text)))
      as [Hc Hopt]; [done|done|apply Counter_pos| |..].
    { by rewrite huffman_optimal.assignment_weights. }
    { apply (huffman_optimal.assignment_prefix_free other text);
        [done|apply Counter_NoDup|]. intros c. apply elem_of_Counter. }
    rewrite (huffman_optimal.huffman_encoded_length text ts t d encoded) by done.
    by rewrite <-Counter_sum, <-huffman_optimal.assignment_cost.
Qed.

Lemma optimality_witness :
  let text := lit "aab" in
  let other : dict := {[Some "a"%char := lit "10"; Some "b"%char := lit "0"]} in
  text ≠ [] ∧ initial_store !! default_codes = Some ∅
  ∧ prefix_code.valid_prefix_code text other
  ∧ ∃ root σ' codes encoded encoded',
      build_huffman_tree (build_frequency_table text) = Ok root
      ∧ generate_codes_call root initial_store = (σ', Ok default_codes)
      ∧ σ' !! default_codes = Some codes
      ∧ encode_text text codes = Ok encoded
      ∧ encode_text text other = Ok encoded'
      ∧ length encoded ≤ length encoded'.
Proof.
  intros text other.
  assert (∀ c, c ∈ text → c = "a"%char ∨ c = "b"%char) as Hin.
  { intros c Hc. unfold text in Hc. simpl in Hc.
    apply elem_of_cons in Hc as [ -> |Hc]; [by left|].
    apply elem_of_cons in Hc as [ -> |Hc]; [by left|].
    apply elem_of_cons in Hc as [ -> |Hc]; [by right|].
    by apply elem_of_nil in Hc. }
  assert (prefix_code.valid_prefix_code text other) as Hvalid.
  { split.
    - intros c [ -> | -> ]%Hin; eexists; (split; [reflexivity|]);
        (split; [discriminate|]);
        unfold prefix_code.binary; apply (bool_decide_unpack _); vm_compute; exact I.
    - intros c1 c2 code1 code2 [ -> | -> ]%Hin [ -> | -> ]%Hin Hne H1 H2;
        try done; vm_compute in H1, H2; simplify_eq;
        intros [k Hk]; discriminate. }
  split; [discriminate|]. split; [reflexivity|]. split; [exact Hvalid|].
  apply (optimality text initial_store ∅ other); [discriminate|reflexivity|exact Hvalid].
Defined.

(** C4 (fresh accumulator), evaluated on HuffmanAlgorithm.py: after a first
    call on the tree of ["ab"], the call [generate_codes(root)] on the tree
    of ["c"], a single leaf, returns a table that still holds the entries of
    the first call; HuffmanAlgorithm2.py returns the one entry of the leaf. *)
Theorem default_accumulator_leaks :
  ∃ root1 root2 σ1 σ2 codes,
    build_huffman_tree (build_frequency_table (lit "ab")) = Ok root1
    ∧ build_huffman_tree (build_frequency_table (lit "c")) = Ok root2
    ∧ root2 = Node_init (Some "c"%char) 1
    ∧ generate_codes_call root1 initial_store = (σ1, Ok default_codes)
    ∧ generate_codes_call root2 σ1 = (σ2, Ok default_codes)
    ∧ σ2 !! default_codes = Some codes
    ∧ codes = {[Some "b"%char := lit "0"; Some "a"%char := lit "1";
                Some "c"%char := lit "0"]}
    ∧ dom codes ≠ {[Some "c"%char]}
    ∧ ∃ τ1 l1 τ2 l2,
        HuffmanAlgorithm2.generate_codes_call root1 HuffmanAlgorithm2.initial_store
          = (τ1, Ok l1)
        ∧ HuffmanAlgorithm2.generate_codes_call root2 τ1 = (τ2, Ok l2)
        ∧ τ2 !! l2 = Some {[Some "c"%char := lit "0"]}.
Proof.
  eexists _, _, _, _, _. split_and!; try (vm_compute; reflexivity).
  - intros Hdom. assert (Some "a"%char ∈ ({[Some "c"%char]} : gset (option ascii))) as Hin.
    { rewrite <-Hdom. apply elem_of_dom. by eexists. }
    by apply elem_of_singleton in Hin.
  - eexists _, _, _, _. split_and!; vm_compute; reflexivity.
Qed.

(** C5 (empty input) as stated fails: the exception raised for an empty
    frequency table is not [EmptyInputError]. *)
Lemma empty_input_not_explicit : build_huffman_tree [] ≠ Raise EmptyInputError.
Proof. discriminate. Qed.

(** C5, amended. On an empty frequency table [build_huffman_tree] raises
    [IndexError]: [heapify] returns the empty list, the loop leaves it as it
    is without popping, and reading [heap[0]] fails. *)
Theorem empty_input_index_error :
  build_huffman_tree [] = Raise IndexError
  ∧ heapq.heapify Node_lt [] = Ok []
  ∧ (∀ fuel, merge_loop fuel [] = Ok [])
  ∧ getitem (@nil Node) 0 = Raise IndexError.
Proof. split_and!; [done..| |done]. by intros []. Qed.

(** C6 (unknown symbol). [encode_text] raises exactly when some symbol of the
    text has no entry in the code table, the exception is [KeyError], and
    when every symbol has an entry the result is the codes of the symbols
    joined in the order of the text. *)
Theorem unknown_symbol (text : str) (codes : dict) :
  (raises (encode_text text codes) ↔ ∃ c, c ∈ text ∧ codes !! Some c = None)
  ∧ (∀ e, encode_text text codes = Raise e → e = KeyError)
  ∧ ((∀ c, c ∈ text → is_Some (codes !! Some c)) →
     encode_text text codes = Ok (text ≫= λ c, default [] (codes !! Some c))).
Proof.
  assert (∀ e, encode_text text codes = Raise e →
    e = KeyError ∧ ∃ c, c ∈ text ∧ codes !! Some c = None) as Hraise.
  { induction text as [|c text IH]; intros e He; simpl in He; [done|].
    destruct (codes !! Some c) as [code|] eqn:Hc.
    - destruct (encode_text text codes) as [rest|e'|]; simplify_eq/=.
      destruct (IH e eq_refl) as (-> & c' & Hin & Hc').
      split; [done|]. exists c'. split; [by right|done].
    - simplify_eq. split; [done|]. exists c. split; [by left|done]. }
  split_and!.
  - split.
    + intros [e He]. by apply Hraise in He as [_ ?].
    + intros (c & Hin & Hc). exists KeyError. by eapply codec.encode_text_KeyError.
  - intros e He. by apply Hraise in He as [? _].
  - apply codec.encode_text_Ok.
Qed.

Lemma unknown_symbol_witness :
  let codes : dict := {[Some "a"%char := lit "0"; Some "b"%char := lit "1"]} in
  encode_text (lit "abba") codes = Ok (lit "0110")
  ∧ raises (encode_text (lit "abz") codes).
Proof.
  intros codes.
  destruct (unknown_symbol (lit "abba") codes) as (_ & _ & Hok).
  destruct (unknown_symbol (lit "abz") codes) as (Hraise & _ & _).
  split.
  - apply Hok. intros c Hc. simpl in Hc.
    repeat (apply elem_of_cons in Hc as [ -> |Hc]; [by eexists|]).
    by apply elem_of_nil in Hc.
  - apply Hraise. exists "z"%char. split; [|reflexivity].
    simpl. do 2 right. by left.
Defined.



(** C8 (truncated stream). For a tree with an inner root and the table
    [generate_codes] returns for it, a bit string made of the codes of the
    symbols [syms] followed by a proper prefix [p] of some code decodes,
    without error, to exactly [syms]: nothing is emitted for [p]. *)
Theorem truncated_stream (t : tree) (σ' : store) (codes : dict)
    (syms : str) (c : ascii) (q p : str) :
  is_inner t →
  generate_codes_call (node_of t) initial_store = (σ', Ok default_codes) →
  σ' !! default_codes = Some codes →
  (∀ s, s ∈ syms → is_Some (codes !! Some s)) →
  codes !! Some c = Some q → p `prefix_of` q → p ≠ [] → p ≠ q →
  decode_text ((syms ≫= λ s, default [] (codes !! Some s)) ++ p) (node_of t)
  = Ok syms.
Proof.
  intros Ht Hgen Hcodes Hsyms Hq Hp _ Hne.
  rewrite (codec.generate_codes_call_tree t initial_store ∅ eq_refl) in Hgen.
  simplify_eq/=.
  assert (∀ s v, fill_codes t [] ∅ !! Some s = Some v → (s, v) ∈ paths t) as Hpath.
  { intros s v [?|(s' & v' & ? & Hv & ->)]%fill_codes_lookup_inv; [done|].
    simplify_eq. simpl.
    by rewrite decide_False by by eapply paths_inner_nonempty. }
  assert (decode_text ((syms ≫= λ s, default [] (fill_codes t [] ∅ !! Some s)) ++ p)
            (node_of t)
          = decode_loop (node_of t)
              ((syms ≫= λ s, default [] (fill_codes t [] ∅ !! Some s)) ++ p)
              [] (node_of t)) as ->.
  { by destruct t. }
  enough (∀ res, decode_loop (node_of t)
            ((syms ≫= λ s, default [] (fill_codes t [] ∅ !! Some s)) ++ p)
            res (node_of t) = Ok (res ++ syms)) as Hloop by apply (Hloop []).
  induction syms as [|s syms IH]; intros res; csimpl.
  - rewrite app_nil_r. by eapply decoding.decode_loop_partial; [apply Hpath|..].
  - destruct (Hsyms s) as [v Hv]; [by left|]. rewrite Hv. simpl.
    rewrite <-(assoc app).
    rewrite (codec.decode_loop_path _ t s v) by auto.
    rewrite IH; [by rewrite <-(assoc app)|].
    intros s' Hs'. apply Hsyms. by right.
Qed.

Lemma truncated_stream_witness :
  let t := Inner 3 (Leaf "a" 1) (Inner 2 (Leaf "c" 1) (Leaf "b" 1)) in
  let codes : dict :=
    {[Some "a"%char := lit "0"; Some "c"%char := lit "10"; Some "b"%char := lit "11"]} in
  decode_text (lit "0100111") (node_of t) = Ok (lit "acab").
Proof.
  intros t codes.
  apply (truncated_stream t [codes] codes (lit "acab") "b" (lit "11") (lit "1")).
  - exact I.
  - vm_compute. reflexivity.
  - reflexivity.
  - intros s Hs. simpl in Hs.
    repeat (apply elem_of_cons in Hs as [ -> |Hs]; [by eexists|]).
    by apply elem_of_nil in Hs.
  - reflexivity.
  - by exists (lit "1").
  - discriminate.
  - discriminate.
Defined.

(** C9 (the two modules agree). The five functions of HuffmanAlgorithm.py
    and of HuffmanAlgorithm2.py return the same frequency table, the same
    tree, the same code table on a first call [generate_codes(root)], the
    same encoding and the same decoding. *)
Theorem implementations_agree (text : str) (freq_table : list (ascii * Z))
    (root : Node) (codes : dict) (encoded_text : str) :
  build_frequency_table text = HuffmanAlgorithm2.build_frequency_table text
  ∧ build_huffman_tree freq_table = HuffmanAlgorithm2.build_huffman_tree freq_table
  ∧ generate_codes_call root initial_store
    = HuffmanAlgorithm2.generate_codes_call root HuffmanAlgorithm2.initial_store
  ∧ encode_text text codes = HuffmanAlgorithm2.encode_text text codes
  ∧ decode_text encoded_text root = HuffmanAlgorithm2.decode_text encoded_text root.
Proof.
  split_and!; [done..| |done|done].
  unfold generate_codes_call, HuffmanAlgorithm2.generate_codes_call.
  by destruct root.
Qed.

(** C10 (decoding is total; any character other than ['0'] goes right). For
    a frequency table with at least two entries [build_huffman_tree] returns
    a tree whose root is an inner node, every inner node of which has both
    children. On that tree [decode_text], in both modules, raises nothing on
    any string, and its result is the one it gives when every character
    other than ['0'] is replaced by ['1']. At an inner node with children
    [l] and [r] the loop moves to [l] on ['0'] and to [r] on every other
    character, writing the symbol and returning to the root when the child
    is a leaf. So a string that has ['0'] where the walk to a leaf turns
    left and any other character where it turns right decodes to the symbol
    of that leaf, and decoding goes on with what follows. *)
Theorem decode_total (freq_table : list (ascii * Z)) :
  2 ≤ length freq_table →
  ∃ t, build_huffman_tree freq_table = Ok (node_of t) ∧ is_inner t
    ∧ (∀ s : str,
        (∃ out, decode_text s (node_of t) = Ok out)
        ∧ decode_text s (node_of t) = decode_text (as_bit <$> s) (node_of t)
        ∧ HuffmanAlgorithm2.decode_text s (node_of t) = decode_text s (node_of t))
    ∧ (∀ (f : Z) (l r : tree) (b : ascii) (bits res : str),
        decode_loop (node_of t) (b :: bits) res (node_of (Inner f l r))
        = match (if decide (b = "0"%char) then l else r) with
          | Leaf c _ => decode_loop (node_of t) bits (res ++ [c]) (node_of t)
          | Inner f' l' r' => decode_loop (node_of t) bits res (node_of (Inner f' l' r'))
          end)
    ∧ (∀ (f : Z) (l r : tree) (b : ascii) (bits res : str), b ≠ "0"%char →
        right (node_of (Inner f l r)) = Some (node_of r)
        ∧ decode_loop (node_of t) (b :: bits) res (node_of (Inner f l r))
          = match r with
            | Leaf c _ => decode_loop (node_of t) bits (res ++ [c]) (node_of t)
            | Inner _ _ _ => decode_loop (node_of t) bits res (node_of r)
            end)
    ∧ (∀ (c : ascii) (p q rest : str),
        (c, p) ∈ paths t → as_bit <$> q = p →
        decode_text (q ++ rest) (node_of t)
        = (out ← decode_text rest (node_of t); Ok (c :: out))).
Proof.
  intros Hlen.
  destruct (build_huffman_tree_tree freq_table) as (t & Hbuild & _ & Ht & _).
  { intros ->. simpl in Hlen. lia. }
  specialize (Ht Hlen). exists t. split_and!; [done|done|..].
  - intros s. split_and!; [|apply decoding.decode_text_as_bit|done].
    destruct t as [|f l r]; [done|].
    apply (decoding.decode_loop_total (Inner f l r) I s [] (Inner f l r) I).
  - intros f l r b bits res. simpl.
    destruct (decide (b = "0"%char)); [by destruct l|by destruct r].
  - intros f l r b bits res Hb. split; [done|]. simpl.
    rewrite decide_False by done. by destruct r.
  - intros c p q rest Hp Hq. destruct t as [|f l r]; [done|].
    rewrite (decoding.decode_text_as_bit (q ++ rest)), fmap_app, Hq.
    rewrite (decoding.decode_text_as_bit rest).
    change (decode_text ?b (node_of (Inner f l r)))
      with (decode_loop (node_of (Inner f l r)) b [] (node_of (Inner f l r))).
    rewrite (codec.decode_loop_path _ (Inner f l r) c p) by done.
    apply decoding.decode_loop_acc.
Qed.

Lemma decode_total_witness :
  let freq_table := [("a"%char, 2%Z); ("b"%char, 6%Z)] in
  2 ≤ length freq_table ∧
  ∃ t, build_huffman_tree freq_table = Ok (node_of t) ∧ is_inner t
    ∧ (∀ s : str,
        (∃ out, decode_text s (node_of t) = Ok out)
        ∧ decode_text s (node_of t) = decode_text (as_bit <$> s) (node_of t)
        ∧ HuffmanAlgorithm2.decode_text s (node_of t) = decode_text s (node_of t))
    ∧ (∀ (f : Z) (l r : tree) (b : ascii) (bits res : str),
        decode_loop (node_of t) (b :: bits) res (node_of (Inner f l r))
        = match (if decide (b = "0"%char) then l else r) with
          | Leaf c _ => decode_loop (node_of t) bits (res ++ [c]) (node_of t)
          | Inner f' l' r' => decode_loop (node_of t) bits res (node_of (Inner f' l' r'))
          end)
    ∧ (∀ (f : Z) (l r : tree) (b : ascii) (bits res : str), b ≠ "0"%char →
        right (node_of (Inner f l r)) = Some (node_of r)
        ∧ decode_loop (node_of t) (b :: bits) res (node_of (Inner f l r))
          = match r with
            | Leaf c _ => decode_loop (node_of t) bits (res ++ [c]) (node_of t)
            | Inner _ _ _ => decode_loop (node_of t) bits res (node_of r)
            end)
    ∧ (∀ (c : ascii) (p q rest : str),
        (c, p) ∈ paths t → as_bit <$> q = p →
        decode_text (q ++ rest) (node_of t)
        = (out ← decode_text rest (node_of t); Ok (c :: out))).
Proof.
  intros freq_table. split; [simpl; lia|].
  apply (decode_total freq_table). simpl. lia.
Defined.

End claims.

(** * Further properties of the code *)

(** ** Frequency tables *)
Module counting.
Import optimal optimal_facts huffman_optimal.

Local Open Scope Z_scope.

Lemma weighted_sum_indicator c (tbl : list (ascii * Z)) :
  NoDup tbl.*1 → ∀ f, (c, f) ∈ tbl → weighted_sum (indicator c) tbl = f.
Proof.
  induction tbl as [|[k v] tbl IH]; intros Hnd f Hin; [by apply elem_of_nil in Hin|].
  csimpl in Hnd. apply NoDup_cons in Hnd as [Hk Hnd]. simpl. unfold indicator at 1.
  apply elem_of_cons in Hin as [Heq|Hin].
  - simplify_eq. rewrite decide_True by done.
    rewrite (weighted_sum_ext _ (λ _, 0)).
    + clear. induction tbl as [|e tbl IH]; simpl; lia.
    + intros x Hx. unfold indicator. rewrite decide_False; [done|by intros ->].
  - rewrite decide_False, (IH Hnd f Hin); [lia|].
    intros ->. apply Hk. apply list_elem_of_fmap. by exists (c, f).
Qed.

Lemma weighted_sum_absent c (tbl : list (ascii * Z)) :
  c ∉ tbl.*1 → weighted_sum (indicator c) tbl = 0.
Proof.
  intros Hc. rewrite (weighted_sum_ext _ (λ _, 0)).
  - clear. induction tbl as [|e tbl IH]; simpl; lia.
  - intros x Hx. unfold indicator. rewrite decide_False; [done|by intros ->].
Qed.

Lemma total_indicator c (text : str) :
  total (indicator c) text = Z.of_nat (occurrences c text).
Proof.
  unfold occurrences. induction text as [|x text IH]; simpl; [done|].
  rewrite filter_cons. unfold indicator at 1.
  destruct (decide (x = c)); simpl; lia.
Qed.

Lemma weighted_sum_ones (tbl : list (ascii * Z)) :
  weighted_sum (λ _, 1) tbl = Zsum tbl.*2.
Proof. induction tbl as [|e tbl IH]; csimpl; [done|]. rewrite IH. lia. Qed.

Lemma total_ones (text : str) : total (λ _, 1) text = Z.of_nat (length text).
Proof. induction text as [|x text IH]; simpl; lia. Qed.

End counting.

(** ** Shape of the built tree *)
Module shape.
Import optimal optimal_facts prefix_code huffman_optimal.

Local Open Scope Z_scope.

Lemma leaves_inner_count t : length (leaves t) = S (inner_count t).
Proof.
  induction t as [c f|f l IHl r IHr]; simpl; [done|].
  rewrite length_app, IHl, IHr. lia.
Qed.

Lemma consistent_weight t : consistent t → weight t = Zsum (entries t).*2.
Proof.
  induction t as [c f|f l IHl r IHr]; simpl; [lia|].
  intros (-> & Hl & Hr). rewrite fmap_app, Zsum_app, <-IHl, <-IHr; done.
Qed.

Lemma huffman_run_ordered ts t : huffman_run ts t → Forall ordered ts → ordered t.
Proof.
  induction 1 as [t|ts t1 t2 rest ts' t Hp Hm1 _ Hp' _ IH]; intros Ho.
  - by apply Forall_cons in Ho as [? _].
  - rewrite Hp in Ho. apply Forall_cons in Ho as [H1 Ho].
    apply Forall_cons in Ho as [H2 Ho]. apply IH. rewrite Hp'.
    constructor; [|done]. simpl. split_and!; [|done..]. apply Hm1. by left.
Qed.

Lemma leaf_of_ordered (tbl : list (ascii * Z)) : Forall ordered (leaf_of <$> tbl).
Proof. induction tbl; by constructor. Qed.

(** Everything the merging keeps, for the tree of a frequency table. *)
Lemma build_huffman_tree_shape (freq_table : list (ascii * Z)) :
  freq_table ≠ [] →
  ∃ t, HuffmanAlgorithm.build_huffman_tree freq_table = Ok (node_of t)
    ∧ entries t ≡ₚ freq_table ∧ consistent t ∧ ordered t.
Proof.
  intros Hne.
  destruct (build.build_huffman_tree_run freq_table Hne) as (t & ts & Hb & Hts & Hrun).
  exists t. split_and!; [done|..].
  - by rewrite (huffman_run_entries _ _ Hrun), Hts, entries_leaf_of.
  - apply (huffman_run_hcost ts t Hrun). rewrite Hts. apply leaf_of_consistent.
  - apply (huffman_run_ordered ts t Hrun). rewrite Hts. apply leaf_of_ordered.
Qed.

End shape.

(** ** What a call of [generate_codes] writes *)
Module tables.
Import HuffmanAlgorithm.

Lemma fill_codes_union t : ∀ cur (d : dict),
  fill_codes t cur d = fill_codes t cur ∅ ∪ d.
Proof.
  induction t as [c f|f l IHl r IHr]; intros cur d; simpl.
  - by rewrite insert_union_singleton_l, insert_empty.
  - rewrite (IHr _ (fill_codes l _ d)), (IHl _ d).
    rewrite (IHr _ (fill_codes l _ ∅)). by rewrite (assoc_L (∪)).
Qed.

Lemma dom_fill_codes t : ∀ cur (d : dict),
  dom (fill_codes t cur d) = list_to_set (Some <$> leaves t) ∪ dom d.
Proof.
  induction t as [c f|f l IHl r IHr]; intros cur d; simpl.
  - rewrite dom_insert_L. simpl. by rewrite (right_id_L ∅ (∪)).
  - rewrite IHr, IHl, fmap_app, list_to_set_app_L.
    rewrite (assoc_L (∪)). f_equal. apply (comm_L (∪)).
Qed.

Lemma encode_text_app (codes : dict) : ∀ s1 s2 : str,
  encode_text (s1 ++ s2) codes
  = (e1 ← encode_text s1 codes; e2 ← encode_text s2 codes; Ok (e1 ++ e2)).
Proof.
  induction s1 as [|c s1 IH]; intros s2; simpl.
  - by destruct (encode_text s2 codes).
  - destruct (codes !! Some c) as [code|]; [|done]. rewrite IH.
    destruct (encode_text s1 codes) as [e1| |]; simpl; [|done..].
    destruct (encode_text s2 codes) as [e2| |]; simpl; [|done..].
    by rewrite (assoc app).
Qed.

(** Whatever the dict held, after [generate_codes] the entry of a leaf
    symbol is a walk to a leaf with that symbol. *)
Lemma fill_codes_leaf t : ∀ (cur : str) (d : dict) (c : ascii),
  c ∈ leaves t →
  ∃ p, (c, p) ∈ paths t
    ∧ fill_codes t cur d !! Some c
      = Some (if decide (cur ++ p = []) then lit "0" else cur ++ p).
Proof.
  induction t as [c0 f|f l IHl r IHr]; intros cur d c Hc; simpl in Hc.
  - apply list_elem_of_singleton in Hc as ->. exists []. split; [by left|].
    simpl. by rewrite lookup_insert_eq, app_nil_r.
  - destruct (decide (c ∈ leaves r)) as [Hr|Hr].
    + destruct (IHr (cur ++ lit "1") (fill_codes l (cur ++ lit "0") d) c Hr)
        as (p & Hp & Hlook).
      exists ("1"%char :: p). split; [apply elem_of_paths_inner; eauto|].
      cbn [fill_codes]. rewrite Hlook.
      rewrite (decide_False (P := (cur ++ _) ++ p = [])) by (by destruct cur).
      rewrite (decide_False (P := cur ++ _ :: p = [])) by (by destruct cur).
      by rewrite <-(assoc app).
    + apply elem_of_app in Hc as [Hl|?]; [|done].
      destruct (IHl (cur ++ lit "0") d c Hl) as (p & Hp & Hlook).
      exists ("0"%char :: p). split; [apply elem_of_paths_inner; eauto|].
      cbn [fill_codes]. rewrite fill_codes_notin.
      2:{ intros (c' & ? & Hc')%list_elem_of_fmap. by simplify_eq. }
      rewrite Hlook.
      rewrite (decide_False (P := (cur ++ _) ++ p = [])) by (by destruct cur).
      rewrite (decide_False (P := cur ++ _ :: p = [])) by (by destruct cur).
      by rewrite <-(assoc app).
Qed.

End tables.

(** ** Decoding bit by bit *)
Module streaming.
Import HuffmanAlgorithm prefix_code.

Lemma decode_loop_codes (t : tree) (codes : dict) (rest : str) : ∀ (syms res : str),
  is_inner t →
  (∀ s, s ∈ syms → ∃ p, codes !! Some s = Some p ∧ (s, p) ∈ paths t) →
  decode_loop (node_of t) ((syms ≫= λ s, default [] (codes !! Some s)) ++ rest)
    res (node_of t)
  = decode_loop (node_of t) rest (res ++ syms) (node_of t).
Proof.
  intros syms res Ht. revert res.
  induction syms as [|s syms IH]; intros res Hsyms; csimpl.
  - by rewrite app_nil_r.
  - destruct (Hsyms s) as (p & Hp & Hin); [by left|]. rewrite Hp. simpl.
    rewrite <-(assoc app), (codec.decode_loop_path _ t s p) by done.
    rewrite IH; [by rewrite <-(assoc app)|].
    intros s' Hs'. apply Hsyms. by right.
Qed.

Lemma paths_binary_bound t : ∀ c p,
  (c, p) ∈ paths t → binary p ∧ length p < length (leaves t).
Proof.
  induction t as [c0 f|f l IHl r IHr]; intros c p Hin.
  - simpl in Hin. apply list_elem_of_singleton in Hin. simplify_eq.
    split; [constructor|simpl; lia].
  - pose proof (shape.leaves_inner_count l). pose proof (shape.leaves_inner_count r).
    simpl. rewrite length_app.
    apply elem_of_paths_inner in Hin as [(p' & -> & Hin)|(p' & -> & Hin)].
    + destruct (IHl c p' Hin) as [Hb Hlen]. split; [constructor; auto|simpl; lia].
    + destruct (IHr c p' Hin) as [Hb Hlen]. split; [constructor; auto|simpl; lia].
Qed.

(** Whatever [decode_loop] emits is a leaf symbol, at most one per bit. *)
Lemma decode_loop_output t : ∀ (bits res out : str) (s : tree),
  (∀ c, c ∈ leaves s → c ∈ leaves t) →
  decode_loop (node_of t) bits res (node_of s) = Ok out →
  length out ≤ length res + length bits
  ∧ ∀ c, c ∈ out → c ∈ res ∨ c ∈ leaves t.
Proof.
  induction bits as [|b bits IH]; intros res out s Hs Hrun; simpl in Hrun.
  - simplify_eq. split; [lia|auto].
  - destruct s as [c0 f0|f0 l r]; simpl in Hrun.
    { by destruct (decide (b = "0"%char)). }
    assert (∀ child, (∀ c, c ∈ leaves child → c ∈ leaves t) →
      match char (node_of child) with
      | Some c => decode_loop (node_of t) bits (res ++ [c]) (node_of t)
      | None => decode_loop (node_of t) bits res (node_of child)
      end = Ok out →
      length out ≤ length res + S (length bits)
      ∧ ∀ c, c ∈ out → c ∈ res ∨ c ∈ leaves t) as Hchild.
    { intros [c1 f1|f1 l1 r1] Hc Hrun'; simpl in Hrun'.
      - apply (IH _ _ t) in Hrun' as [Hlen Hin]; [|done].
        rewrite length_app in Hlen. simpl in Hlen. split; [lia|].
        intros c [[?| ->%list_elem_of_singleton]%elem_of_app|?]%Hin; auto.
        right. apply Hc. by left.
      - apply (IH _ _ (Inner f1 l1 r1)) in Hrun' as [Hlen Hin]; [|done].
        split; [lia|done]. }
    simpl in Hs. destruct (decide (b = "0"%char)); simpl.
    + apply (Hchild l); [|done]. intros c Hc. apply Hs, elem_of_app. by left.
    + apply (Hchild r); [|done]. intros c Hc. apply Hs, elem_of_app. by right.
Qed.

Lemma encode_text_Ok_inv (codes : dict) : ∀ (text encoded : str),
  encode_text text codes = Ok encoded → ∀ c, c ∈ text → is_Some (codes !! Some c).
Proof.
  intros text encoded Henc c Hc.
  destruct (codes !! Some c) as [code|] eqn:Hlook; [by eexists|].
  by rewrite (codec.encode_text_KeyError text codes c Hc Hlook) in Henc.
Qed.

(** Keys of a fresh table are leaf symbols. *)
Lemma fresh_table_key t (c : ascii) :
  is_Some (fill_codes t [] ∅ !! Some c) → c ∈ leaves t.
Proof.
  intros [v Hv]. apply fill_codes_lookup_inv in Hv as [?|(c' & p & ? & Hp & _)]; [done|].
  simplify_eq. by eapply elem_of_paths_leaves.
Qed.

(** The entry of a leaf symbol: non-empty, of ['0'] and ['1'], shorter than
    the number of leaves unless the tree is a single leaf. *)
Lemma leaf_code_shape (t : tree) (d : dict) (c : ascii) :
  c ∈ leaves t →
  ∃ code, fill_codes t [] d !! Some c = Some code ∧ code ≠ []
    ∧ prefix_code.binary code
    ∧ length code ≤ Nat.max 1 (length (leaves t) - 1).
Proof.
  intros Hc. destruct (tables.fill_codes_leaf t [] d c Hc) as (p & Hp & Hlook).
  eexists. split; [exact Hlook|].
  destruct (paths_binary_bound t c p Hp) as [Hbin Hlen]. simpl.
  destruct p as [|b p].
  - rewrite decide_True by done. split_and!; [done| |simpl; lia].
    constructor; [by left|constructor].
  - rewrite decide_False by done. split_and!; [done..|lia].
Qed.

End streaming.

(** ** Fixed-length codes and exchanged codes *)
Module bounds.
Import HuffmanAlgorithm optimal optimal_facts prefix_code huffman_optimal.

Lemma length_words k : length (words k) = 2 ^ k.
Proof.
  induction k as [|k IH]; [done|]. simpl.
  rewrite length_app, !length_fmap, IH. lia.
Qed.

Lemma words_length k : Forall (λ w, length w = k) (words k).
Proof.
  induction k as [|k IH]; simpl; [by repeat constructor|].
  apply Forall_app. split; apply Forall_fmap; eapply Forall_impl; try done;
    intros w <-; done.
Qed.

Lemma NoDup_words k : NoDup (words k).
Proof.
  induction k as [|k IH]; simpl; [apply NoDup_singleton|].
  apply NoDup_app. split_and!.
  - apply NoDup_fmap_2; [|done]. by intros ?? [=].
  - intros w (w1 & -> & _)%list_elem_of_fmap (w2 & ? & _)%list_elem_of_fmap. done.
  - apply NoDup_fmap_2; [|done]. by intros ?? [=].
Qed.

Lemma same_length_prefix_free (cs : list word) k :
  Forall (λ w, length w = k) cs → NoDup cs → prefix_free cs.
Proof.
  induction cs as [|c cs IH]; intros Hlen Hnd; [done|].
  apply Forall_cons in Hlen as [Hc Hlen]. apply NoDup_cons in Hnd as [Hin Hnd].
  apply prefix_free_cons. split; [|by apply IH].
  apply Forall_forall. intros c' Hc'.
  pose proof (proj1 (Forall_forall _ _) Hlen c' Hc') as Hc'len. simpl in Hc'len.
  split; intros Hp; apply Hin.
  - by rewrite (prefix_length_eq _ _ Hp) by lia.
  - by rewrite <-(prefix_length_eq _ _ Hp) by lia.
Qed.

Local Open Scope Z_scope.

Lemma acost_fixed (A : list (Z * word)) (k : nat) :
  Forall (λ e, length e.2 = k) A → acost A = Z.of_nat k * Zsum A.*1.
Proof.
  induction 1 as [|[w c] A Hc _ IH]; csimpl; [unfold acost; simpl; lia|].
  rewrite acost_cons, IH. simpl in Hc. rewrite Hc. lia.
Qed.

(** Code words of one length for [ws], when there are enough of them. *)
Lemma fixed_assignment (ws : list Z) (k : nat) :
  (length ws ≤ 2 ^ k)%nat →
  ∃ A : list (Z * word),
    A.*1 = ws ∧ prefix_free A.*2 ∧ acost A = Z.of_nat k * Zsum ws.
Proof.
  intros Hlen.
  assert (length (take (length ws) (words k)) = length ws) as Htake.
  { apply length_take_le. by rewrite length_words. }
  exists (zip ws (take (length ws) (words k))).
  assert ((zip ws (take (length ws) (words k))).*1 = ws) as H1
    by (apply fst_zip; lia).
  assert ((zip ws (take (length ws) (words k))).*2 = take (length ws) (words k)) as H2
    by (apply snd_zip; lia).
  split_and!; [done|..].
  - rewrite H2. apply (same_length_prefix_free _ k).
    + apply Forall_take, words_length.
    + eapply sublist_NoDup; [apply NoDup_words|apply sublist_take].
  - rewrite (acost_fixed _ k), H1; [done|].
    apply Forall_forall. intros [w c] Hin.
    assert (c ∈ take (length ws) (words k)) as Hc.
    { rewrite <-H2. apply list_elem_of_fmap. by exists (w, c). }
    assert (Forall (λ w, length w = k) (take (length ws) (words k))) as Hall
      by apply Forall_take, words_length.
    apply (proj1 (Forall_forall _ _) Hall c Hc).
Qed.

(** The table generated for an inner tree: what a key maps to. *)
Lemma inner_table_entry t (c : ascii) (v : str) :
  is_inner t → fill_codes t [] ∅ !! Some c = Some v →
  (c, v) ∈ paths t ∧ v ≠ [] ∧ binary v.
Proof.
  intros Ht [?|(c' & p & ? & Hp & ->)]%fill_codes_lookup_inv; [done|].
  simplify_eq. pose proof (paths_inner_nonempty t _ _ Ht Hp) as Hne.
  simpl. rewrite decide_False by done. split_and!; [done..|].
  by apply (streaming.paths_binary_bound t c' p).
Qed.

(** Cost of the tree as the cost of its own table on its own entries. *)
Lemma inner_table_cost t :
  is_inner t → consistent t → NoDup (leaves t) →
  weighted_sum (λ c, Z.of_nat (length (default [] (fill_codes t [] ∅ !! Some c))))
    (entries t) = cost t.
Proof.
  intros Ht Hc Hnd. rewrite (weighted_sum_paths t _ 0 Hc); [lia|].
  intros c p Hp. rewrite (fill_codes_path t [] ∅ c p); [done..|].
  simpl. by eapply paths_inner_nonempty.
Qed.

Lemma exchange_lookup (a b c : ascii) (ca cb : str) (codes : dict) :
  codes !! Some a = Some ca → codes !! Some b = Some cb →
  exchange a b ca cb codes !! Some c = codes !! Some (exchanged a b c).
Proof.
  intros Ha Hb. unfold exchange, exchanged.
  destruct (decide (c = a)) as [->|Hca].
  { by rewrite lookup_insert_eq. }
  rewrite lookup_insert_ne by congruence.
  destruct (decide (c = b)) as [->|Hcb].
  { by rewrite lookup_insert_eq. }
  by rewrite lookup_insert_ne by congruence.
Qed.

Lemma exchanged_inj (a b c1 c2 : ascii) :
  exchanged a b c1 = exchanged a b c2 → c1 = c2.
Proof. unfold exchanged. repeat case_decide; congruence. Qed.

Lemma exchange_valid t (keys : str) (a b : ascii) (ca cb : str) :
  is_inner t → NoDup (leaves t) → (∀ c, c ∈ keys → c ∈ leaves t) →
  a ∈ leaves t → b ∈ leaves t →
  fill_codes t [] ∅ !! Some a = Some ca → fill_codes t [] ∅ !! Some b = Some cb →
  valid_prefix_code keys (exchange a b ca cb (fill_codes t [] ∅)).
Proof.
  intros Ht Hnd Hkeys Hal Hbl Ha Hb.
  assert (∀ c, c ∈ leaves t → exchanged a b c ∈ leaves t) as Hex.
  { intros c Hc. unfold exchanged. by repeat case_decide. }
  split.
  - intros c Hc%Hkeys%Hex. rewrite (exchange_lookup a b c ca cb _ Ha Hb).
    destruct (roundtrip.fill_codes_lookup t ∅ _ Hnd Hc) as (code & Hcode & _).
    exists code. split; [done|].
    by apply (inner_table_entry t (exchanged a b c) code Ht Hcode).
  - intros c1 c2 code1 code2 _ _ Hne H1 H2.
    rewrite (exchange_lookup a b _ ca cb _ Ha Hb) in H1.
    rewrite (exchange_lookup a b _ ca cb _ Ha Hb) in H2.
    apply (fill_codes_prefix_free t _ _ code1 code2 Hnd H1 H2).
    intros [= Heq]. by apply Hne, (exchanged_inj a b).
Qed.

Lemma table_entry_unique (tbl : list (ascii * Z)) (c : ascii) (f1 f2 : Z) :
  NoDup tbl.*1 → (c, f1) ∈ tbl → (c, f2) ∈ tbl → f1 = f2.
Proof.
  intros Hnd [tbl1 H1]%elem_of_Permutation H2.
  rewrite H1 in Hnd, H2. csimpl in Hnd. apply NoDup_cons in Hnd as [Hc _].
  apply elem_of_cons in H2 as [?|H2]; [congruence|].
  destruct Hc. apply list_elem_of_fmap. by exists (c, f2).
Qed.

Lemma table_split_two (tbl : list (ascii * Z)) a b fa fb :
  NoDup tbl.*1 → (a, fa) ∈ tbl → (b, fb) ∈ tbl → a ≠ b →
  ∃ rest, tbl ≡ₚ (a, fa) :: (b, fb) :: rest ∧ (a ∉ rest.*1) ∧ (b ∉ rest.*1).
Proof.
  intros Hnd Ha Hb Hne.
  apply elem_of_Permutation in Ha as [tbl1 H1].
  rewrite H1 in Hb. apply elem_of_cons in Hb as [?|Hb]; [congruence|].
  apply elem_of_Permutation in Hb as [tbl' H2].
  exists tbl'. rewrite H1, H2 in Hnd. csimpl in Hnd.
  apply NoDup_cons in Hnd as [Hna Hnd]. apply NoDup_cons in Hnd as [Hnb _].
  split_and!; [by rewrite H1, H2| |done].
  intros Hin. apply Hna. by right.
Qed.

(** In the built tree a symbol with a strictly larger count has a code no
    longer than one with a smaller count: otherwise exchanging the two codes
    would give a cheaper prefix code. *)
Lemma larger_count_shorter (tbl : list (ascii * Z)) (ts : list tree) (t : tree)
    (a b : ascii) (fa fb : Z) (ca cb : str) :
  NoDup tbl.*1 → Forall (λ e, 0 < e.2) tbl →
  ts ≡ₚ leaf_of <$> tbl → huffman_run ts t →
  (a, fa) ∈ tbl → (b, fb) ∈ tbl → fa < fb →
  fill_codes t [] ∅ !! Some a = Some ca → fill_codes t [] ∅ !! Some b = Some cb →
  (length cb ≤ length ca)%nat.
Proof.
  intros Hnd Hpos Hts Hrun Ha Hb Hlt Hca Hcb.
  assert (a ≠ b) as Hne.
  { intros ->. pose proof (table_entry_unique _ _ _ _ Hnd Ha Hb). lia. }
  assert (entries t ≡ₚ tbl) as Hent.
  { by rewrite (huffman_run_entries _ _ Hrun), Hts, entries_leaf_of. }
  assert (leaves t ≡ₚ tbl.*1) as Hleaves by (by rewrite <-entries_leaves, Hent).
  assert (NoDup (leaves t)) as Hndt by (by rewrite Hleaves).
  assert (is_inner t) as Ht.
  { destruct (huffman_run_shape _ _ Hrun) as [->|]; [|done].
    apply Permutation_singleton_l in Hts.
    destruct tbl as [|e [|??]]; simplify_eq/=.
    apply list_elem_of_singleton in Ha, Hb. congruence. }
  set (H' := exchange a b ca cb (fill_codes t [] ∅)).
  assert (valid_prefix_code tbl.*1 H') as Hvalid.
  { apply exchange_valid; try done.
    - intros c. by rewrite Hleaves.
    - rewrite Hleaves. apply list_elem_of_fmap. by exists (a, fa).
    - rewrite Hleaves. apply list_elem_of_fmap. by exists (b, fb). }
  destruct (huffman_run_optimal tbl ts t (assignment H' tbl)) as [Hc Hopt];
    [done..|by rewrite assignment_weights| |].
  { by apply (assignment_prefix_free H' tbl.*1). }
  rewrite assignment_cost in Hopt.
  rewrite <-(inner_table_cost t Ht Hc Hndt), Hent in Hopt.
  destruct (table_split_two tbl a b fa fb Hnd Ha Hb Hne)
    as (tbl' & Htbl & Hna & Hnb).
  rewrite Htbl in Hopt. simpl in Hopt.
  rewrite !(exchange_lookup a b _ ca cb _ Hca Hcb) in Hopt.
  unfold exchanged at 1 2 in Hopt.
  rewrite (decide_True (P := a = a)) in Hopt by done.
  rewrite (decide_False (P := b = a)), (decide_True (P := b = b)) in Hopt by done.
  rewrite Hca, Hcb in Hopt. simpl in Hopt.
  rewrite (weighted_sum_ext
    (λ c, Z.of_nat (length (default [] (H' !! Some c))))
    (λ c, Z.of_nat (length (default [] (fill_codes t [] ∅ !! Some c)))) tbl')
    in Hopt.
  - pose proof (proj1 (Forall_forall _ _) Hpos _ Ha).
    pose proof (proj1 (Forall_forall _ _) Hpos _ Hb). simpl in *. nia.
  - intros c Hc'. unfold H'. rewrite (exchange_lookup a b _ ca cb _ Hca Hcb).
    unfold exchanged. rewrite !decide_False; [done|by intros ->..].
Qed.

(** The table generated for an inner tree with distinct leaves is a valid
    prefix code for its leaves. *)
Lemma inner_table_valid t (keys : str) :
  is_inner t → NoDup (leaves t) → (∀ c, c ∈ keys → c ∈ leaves t) →
  valid_prefix_code keys (fill_codes t [] ∅).
Proof.
  intros Ht Hnd Hkeys. split.
  - intros c Hc%Hkeys.
    destruct (roundtrip.fill_codes_lookup t ∅ _ Hnd Hc) as (code & Hcode & _).
    exists code. split; [done|].
    by apply (inner_table_entry t c code Ht Hcode).
  - intros c1 c2 code1 code2 _ _ Hne H1 H2.
    apply (fill_codes_prefix_free t _ _ code1 code2 Hnd H1 H2). congruence.
Qed.

(** Two runs of the merging on the same table give trees of the same cost,
    however ties were broken. *)
Lemma run_cost_le (tbl : list (ascii * Z)) (ts1 ts2 : list tree) (t1 t2 : tree) :
  NoDup tbl.*1 → Forall (λ e, 0 < e.2) tbl →
  ts1 ≡ₚ leaf_of <$> tbl → huffman_run ts1 t1 →
  ts2 ≡ₚ leaf_of <$> tbl → huffman_run ts2 t2 → is_inner t2 →
  cost t1 ≤ cost t2.
Proof.
  intros Hnd Hpos Hts1 Hrun1 Hts2 Hrun2 Ht2.
  assert (entries t2 ≡ₚ tbl) as Hent.
  { by rewrite (huffman_run_entries _ _ Hrun2), Hts2, entries_leaf_of. }
  assert (leaves t2 ≡ₚ tbl.*1) as Hleaves by (by rewrite <-entries_leaves, Hent).
  assert (NoDup (leaves t2)) as Hnd2 by (by rewrite Hleaves).
  destruct (huffman_run_hcost ts2 t2 Hrun2) as [Hc2 _].
  { rewrite Hts2. apply leaf_of_consistent. }
  destruct (huffman_run_optimal tbl ts1 t1 (assignment (fill_codes t2 [] ∅) tbl))
    as [_ Hopt]; [done..|by rewrite assignment_weights| |].
  { apply (assignment_prefix_free _ tbl.*1); [|done..].
    apply inner_table_valid; [done..|]. intros c. by rewrite Hleaves. }
  rewrite assignment_cost in Hopt.
  by rewrite <-(inner_table_cost t2 Ht2 Hc2 Hnd2), Hent.
Qed.

End bounds.

(** ** Completeness of the code *)
Module kraft.
Import HuffmanAlgorithm optimal optimal_facts prefix_code huffman_optimal.

Local Open Scope Z_scope.

(** Kraft's sum over the leaves of a tree, scaled by [2^h]. *)
Lemma kraft_entries t : ∀ (g : ascii → nat) (k h : nat),
  (∀ c p, (c, p) ∈ paths t → g c = (k + length p)%nat ∧ (k + length p ≤ h)%nat) →
  Zsum ((λ e, 2 ^ Z.of_nat (h - g e.1)) <$> entries t) = 2 ^ Z.of_nat (h - k).
Proof.
  induction t as [c f|f l IHl r IHr]; intros g k h Hg; simpl.
  - destruct (Hg c []) as [-> _]; [by left|]. simpl.
    rewrite Nat.add_0_r. lia.
  - assert (S k ≤ h)%nat as Hk.
    { assert (∃ c p, (c, p) ∈ paths l) as (c0 & p0 & Hp0).
      { clear. induction l as [c f|f l1 IH1 l2 _]; [exists c, []; by left|].
        destruct IH1 as (c & p & Hp). exists c, ("0"%char :: p).
        apply elem_of_paths_inner. eauto. }
      destruct (Hg c0 ("0"%char :: p0)) as [_ Hle]; [apply elem_of_paths_inner; eauto|].
      simpl in Hle. lia. }
    rewrite fmap_app, Zsum_app, (IHl g (S k) h), (IHr g (S k) h).
    + replace (h - k)%nat with (S (h - S k)) by lia.
      rewrite Nat2Z.inj_succ, Z.pow_succ_r by lia. lia.
    + intros c p Hp. destruct (Hg c ("1"%char :: p)) as [-> Hle];
        [apply elem_of_paths_inner; eauto|]. simpl in *. lia.
    + intros c p Hp. destruct (Hg c ("0"%char :: p)) as [-> Hle];
        [apply elem_of_paths_inner; eauto|]. simpl in *. lia.
Qed.

End kraft.

Section extras.
Import HuffmanAlgorithm optimal_facts huffman_optimal.

(** X1 (frequency table). [build_frequency_table] has one entry per distinct
    symbol of the text and no other; the count of a symbol is the number of
    its occurrences, so it is positive, and the counts add up to the length
    of the text. *)
Theorem frequency_table_counts (text : str) :
  NoDup (build_frequency_table text).*1
  ∧ (∀ c, c ∈ (build_frequency_table text).*1 ↔ c ∈ text)
  ∧ (∀ c f, (c, f) ∈ build_frequency_table text →
       f = Z.of_nat (occurrences c text) ∧ (0 < f)%Z)
  ∧ optimal.Zsum (build_frequency_table text).*2 = Z.of_nat (length text).
Proof.
  unfold build_frequency_table. split_and!.
  - apply Counter_NoDup.
  - apply elem_of_Counter.
  - intros c f Hin. split.
    + rewrite <-counting.total_indicator, <-Counter_sum.
      symmetry. by apply counting.weighted_sum_indicator; [apply Counter_NoDup|].
    + by apply (proj1 (Forall_forall _ _) (Counter_pos text) (c, f)).
  - by rewrite <-counting.weighted_sum_ones, Counter_sum, counting.total_ones.
Qed.

(** X2 (tree structure). For a non-empty frequency table
    [build_huffman_tree] returns a tree whose leaves are the entries of the
    table, each once, with its count; it has one inner node fewer than
    leaves, every inner node carries the sum of the frequencies of its two
    children, and the root carries the sum of all counts. *)
Theorem tree_structure (freq_table : list (ascii * Z)) :
  freq_table ≠ [] →
  ∃ t, build_huffman_tree freq_table = Ok (node_of t)
    ∧ prefix_code.entries t ≡ₚ freq_table
    ∧ length (leaves t) = length freq_table
    ∧ S (inner_count t) = length freq_table
    ∧ prefix_code.consistent t
    ∧ freq (node_of t) = optimal.Zsum freq_table.*2.
Proof.
  intros Hne.
  destruct (shape.build_huffman_tree_shape freq_table Hne) as (t & Hb & Hent & Hc & _).
  assert (length (leaves t) = length freq_table) as Hlen.
  { by rewrite <-huffman_optimal.entries_leaves, length_fmap, Hent. }
  exists t. split_and!; [done..| |done|].
  - by rewrite <-shape.leaves_inner_count.
  - by rewrite freq_node_of, (shape.consistent_weight t Hc), Hent.
Qed.

Lemma tree_structure_witness :
  let freq_table := [("a"%char, 5%Z); ("b"%char, 2%Z); ("c"%char, 1%Z)] in
  freq_table ≠ [] ∧
  ∃ t, build_huffman_tree freq_table = Ok (node_of t)
    ∧ prefix_code.entries t ≡ₚ freq_table
    ∧ length (leaves t) = length freq_table
    ∧ S (inner_count t) = length freq_table
    ∧ prefix_code.consistent t
    ∧ freq (node_of t) = optimal.Zsum freq_table.*2.
Proof.
  intros freq_table. split; [discriminate|].
  apply (tree_structure freq_table). discriminate.
Defined.

(** X3 (root frequency). For a non-empty text, the root of the tree built
    from its frequency table carries the length of the text. *)
Theorem root_frequency (text : str) :
  text ≠ [] →
  ∃ root, build_huffman_tree (build_frequency_table text) = Ok root
    ∧ freq root = Z.of_nat (length text).
Proof.
  intros Htext. unfold build_frequency_table.
  destruct (shape.build_huffman_tree_shape (Counter text)) as (t & Hb & Hent & Hc & _).
  { by apply Counter_nonempty. }
  exists (node_of t). split; [done|].
  rewrite freq_node_of, (shape.consistent_weight t Hc), Hent.
  by rewrite <-counting.weighted_sum_ones, Counter_sum, counting.total_ones.
Qed.

Lemma root_frequency_witness :
  lit "Huffman Coding" ≠ [] ∧
  ∃ root, build_huffman_tree (build_frequency_table (lit "Huffman Coding")) = Ok root
    ∧ freq root = Z.of_nat (length (lit "Huffman Coding")).
Proof.
  split; [discriminate|]. apply (root_frequency (lit "Huffman Coding")). discriminate.
Defined.

(** X4 (first popped is left). In the tree [build_huffman_tree] returns, the
    left child of every inner node has a frequency no larger than that of
    the right child. *)
Theorem left_child_lighter (freq_table : list (ascii * Z)) :
  freq_table ≠ [] →
  ∃ t, build_huffman_tree freq_table = Ok (node_of t) ∧ ordered t.
Proof.
  intros Hne.
  destruct (shape.build_huffman_tree_shape freq_table Hne) as (t & Hb & _ & _ & Ho).
  by exists t.
Qed.

Lemma left_child_lighter_witness :
  let freq_table := [("a"%char, 5%Z); ("b"%char, 2%Z); ("c"%char, 1%Z)] in
  freq_table ≠ [] ∧
  ∃ t, build_huffman_tree freq_table = Ok (node_of t) ∧ ordered t.
Proof.
  intros freq_table. split; [discriminate|].
  apply (left_child_lighter freq_table). discriminate.
Defined.

(** X5 (a table of its own). In HuffmanAlgorithm2.py a call
    [generate_codes(root)] on a tree allocates a new dict, leaves every dict
    that existed before as it was, and returns a table whose keys are
    exactly the leaf symbols; the table is the one a first call returns,
    whatever calls came before. *)
Theorem fresh_table_per_call (t : tree) (σ : store) :
  ∃ codes : dict,
    HuffmanAlgorithm2.generate_codes_call (node_of t) σ
      = (σ ++ [codes], Ok (length σ))
    ∧ dom codes = list_to_set (Some <$> leaves t)
    ∧ HuffmanAlgorithm2.generate_codes_call (node_of t) HuffmanAlgorithm2.initial_store
      = ([codes], Ok 0).
Proof.
  exists (fill_codes t [] ∅). split_and!.
  - apply codec.generate_codes2_call_tree.
  - by rewrite tables.dom_fill_codes, dom_empty_L, (right_id_L ∅ (∪)).
  - apply (codec.generate_codes2_call_tree t []).
Qed.

(** X6 (what the shared default keeps). In HuffmanAlgorithm.py a call
    [generate_codes(root)] on a tree returns the table of a fresh call laid
    over what the default dict held: the entries of the leaf symbols are
    replaced, every other entry stays. A second call on the same tree
    changes nothing. *)
Theorem default_accumulator_overlay (t : tree) (σ : store) (d : dict) :
  σ !! default_codes = Some d →
  ∃ fresh : dict,
    HuffmanAlgorithm2.generate_codes_call (node_of t) HuffmanAlgorithm2.initial_store
      = ([fresh], Ok 0)
    ∧ generate_codes_call (node_of t) σ
      = (<[default_codes := fresh ∪ d]> σ, Ok default_codes)
    ∧ generate_codes_call (node_of t) (<[default_codes := fresh ∪ d]> σ)
      = (<[default_codes := fresh ∪ d]> σ, Ok default_codes).
Proof.
  intros Hd. exists (fill_codes t [] ∅). split_and!.
  - apply (codec.generate_codes2_call_tree t []).
  - rewrite (codec.generate_codes_call_tree t σ d Hd).
    by rewrite (tables.fill_codes_union t [] d).
  - rewrite (codec.generate_codes_call_tree t _ (fill_codes t [] ∅ ∪ d)).
    + rewrite list_insert_insert_eq.
      rewrite (tables.fill_codes_union t [] (_ ∪ d)).
      by rewrite (assoc_L (∪)), (idemp_L (∪)).
    + apply list_lookup_insert_eq. by eapply lookup_lt_Some.
Qed.

Lemma default_accumulator_overlay_witness :
  let t := Inner 2 (Leaf "b" 1) (Leaf "a" 1) in
  let d : dict := {[Some "c"%char := lit "10"]} in
  [d] !! default_codes = Some d ∧
  ∃ fresh : dict,
    HuffmanAlgorithm2.generate_codes_call (node_of t) HuffmanAlgorithm2.initial_store
      = ([fresh], Ok 0)
    ∧ generate_codes_call (node_of t) [d]
      = (<[default_codes := fresh ∪ d]> [d], Ok default_codes)
    ∧ generate_codes_call (node_of t) (<[default_codes := fresh ∪ d]> [d])
      = (<[default_codes := fresh ∪ d]> [d], Ok default_codes).
Proof.
  intros t d. split; [reflexivity|].
  exact (default_accumulator_overlay t [d] d eq_refl).
Defined.

(** X7 (a node with one child). [generate_codes] on a node whose right child
    is missing first records the codes of the left subtree in the dict and
    then raises [AttributeError]; with the left child missing it raises at
    once and writes nothing. [decode_text] raises [AttributeError] when a bit
    leads to the missing child, and [TypeError] on a childless root without
    a symbol. *)
Theorem missing_child_errors (c : option ascii) (f : Z) (child : tree)
    (cur bits : str) (l : loc) (σ : store) (d : dict) :
  σ !! l = Some d →
  generate_codes (mkNode c f (Some (node_of child)) None) cur (Some l) σ
    = (<[l := fill_codes child (cur ++ lit "0") d]> σ, Raise AttributeError)
  ∧ generate_codes (mkNode c f None (Some (node_of child))) cur (Some l) σ
    = (σ, Raise AttributeError)
  ∧ decode_text ("1"%char :: bits) (mkNode c f (Some (node_of child)) None)
    = Raise AttributeError
  ∧ decode_text ("0"%char :: bits) (mkNode c f None (Some (node_of child)))
    = Raise AttributeError
  ∧ decode_text bits (mkNode None f None None) = Raise TypeError.
Proof.
  intros Hl. split_and!; [|done..].
  simpl. by rewrite (codec.generate_codes_tree child _ l σ d Hl).
Qed.

Lemma missing_child_errors_witness :
  ([∅] : store) !! 0 = Some ∅ ∧
  generate_codes (mkNode None 3 (Some (node_of (Leaf "a" 3))) None) (lit "") (Some 0) [∅]
  = (<[0 := fill_codes (Leaf "a" 3) (lit "" ++ lit "0") ∅]> [∅], Raise AttributeError).
Proof.
  split; [reflexivity|].
  exact (proj1 (missing_child_errors None 3 (Leaf "a" 3) (lit "") (lit "") 0 [∅] ∅ eq_refl)).
Defined.

(** X8 (encoding a concatenation). Encoding [s1 ++ s2] is encoding [s1],
    then [s2], and joining the results; it raises when either part does. *)
Theorem encode_concatenation (s1 s2 : str) (codes : dict) :
  encode_text (s1 ++ s2) codes
  = (e1 ← encode_text s1 codes; e2 ← encode_text s2 codes; Ok (e1 ++ e2)).
Proof. apply tables.encode_text_app. Qed.

(** X9 (decoding a concatenation). Whatever the default dict held before the
    call, with the table [generate_codes] returns for a tree the codes of
    leaf symbols [syms] of the tree followed by any string [rest] decode to
    [syms] followed by what [rest] decodes to, and raise nothing unless
    decoding [rest] does. *)
Theorem decode_concatenation (t : tree) (σ σ' : store) (d codes : dict)
    (syms rest : str) :
  σ !! default_codes = Some d →
  generate_codes_call (node_of t) σ = (σ', Ok default_codes) →
  σ' !! default_codes = Some codes →
  (∀ s, s ∈ syms → s ∈ leaves t) →
  decode_text ((syms ≫= λ s, default [] (codes !! Some s)) ++ rest) (node_of t)
  = (out ← decode_text rest (node_of t); Ok (syms ++ out)).
Proof.
  intros Hd Hgen Hcodes Hsyms.
  rewrite (codec.generate_codes_call_tree t σ d Hd) in Hgen.
  assert (codes = fill_codes t [] d) as ->.
  { simplify_eq. rewrite list_lookup_insert_eq in Hcodes by (by eapply lookup_lt_Some).
    by simplify_eq. }
  clear Hgen Hcodes. destruct t as [c f|f l r].
  - simpl in *. unfold decode_text. simpl.
    assert (∀ s, s ∈ syms → s = c) as Hc.
    { intros s Hs%Hsyms. by apply list_elem_of_singleton in Hs. }
    f_equal. clear Hsyms. induction syms as [|s syms IH]; csimpl; [done|].
    rewrite (Hc s) by (by left). rewrite lookup_insert_eq. simpl. f_equal.
    apply IH. intros s' Hs'. apply Hc. by right.
  - change (decode_text ?b (node_of (Inner f l r)))
      with (decode_loop (node_of (Inner f l r)) b [] (node_of (Inner f l r))).
    rewrite (streaming.decode_loop_codes (Inner f l r)); [|done|].
    + apply decoding.decode_loop_acc.
    + intros s Hs%Hsyms.
      destruct (tables.fill_codes_leaf (Inner f l r) [] d s Hs) as (p & Hp & Hlook).
      exists p. split; [|done]. rewrite Hlook. simpl.
      by rewrite decide_False by (by eapply (paths_inner_nonempty (Inner f l r))).
Qed.

Lemma decode_concatenation_witness :
  let t := Inner 2 (Leaf "y" 1) (Leaf "x" 1) in
  let d : dict :=
    {[Some "c"%char := lit "00"; Some "b"%char := lit "01"; Some "a"%char := lit "1"]} in
  let codes : dict :=
    {[Some "c"%char := lit "00"; Some "b"%char := lit "01"; Some "a"%char := lit "1";
      Some "y"%char := lit "0"; Some "x"%char := lit "1"]} in
  generate_codes_call (node_of t) [d] = ([codes], Ok default_codes)
  ∧ decode_text (lit "100" ++ lit "1") (node_of t)
    = (out ← decode_text (lit "1") (node_of t); Ok (lit "xyy" ++ out)).
Proof.
  intros t d codes.
  assert (generate_codes_call (node_of t) [d] = ([codes], Ok default_codes)) as Hgen
    by (vm_compute; reflexivity).
  split; [exact Hgen|].
  apply (decode_concatenation t [d] [codes] d codes (lit "xyy") (lit "1"));
    [reflexivity|exact Hgen|reflexivity|].
  intros s Hs. simpl in Hs.
  repeat (apply elem_of_cons in Hs as [ -> |Hs];
          [apply (bool_decide_unpack _); vm_compute; exact I|]).
  by apply elem_of_nil in Hs.
Defined.

(** X10 (size of the encoding). When [encode_text] returns, the number of
    bits is the sum over the frequency table of count times code length. *)
Theorem encoded_size (text encoded : str) (codes : dict) :
  encode_text text codes = Ok encoded →
  Z.of_nat (length encoded)
  = weighted_sum (λ c, Z.of_nat (length (default [] (codes !! Some c))))
      (build_frequency_table text).
Proof.
  intros Henc. unfold build_frequency_table.
  by rewrite Counter_sum, (encode_text_length codes text encoded Henc).
Qed.

Lemma encoded_size_witness :
  let codes : dict := {[Some "a"%char := lit "0"; Some "b"%char := lit "10"]} in
  encode_text (lit "abba") codes = Ok (lit "010100")
  ∧ Z.of_nat (length (lit "010100"))
    = weighted_sum (λ c, Z.of_nat (length (default [] (codes !! Some c))))
        (build_frequency_table (lit "abba")).
Proof.
  intros codes. split; [reflexivity|].
  apply (encoded_size (lit "abba") (lit "010100") codes). reflexivity.
Defined.

(** X11 (shape of the codes). For the tree of a non-empty frequency table
    and whatever the default dict held before the call, the table
    [generate_codes] returns gives every symbol of the frequency table a
    non-empty code of ['0'] and ['1'], shorter than the number of symbols
    unless there is one symbol, whose code has one bit. In
    HuffmanAlgorithm2.py, where every call fills a dict of its own, this
    holds of every entry of the returned table. *)
Theorem codes_shape (freq_table : list (ascii * Z)) (σ : store) (d : dict) :
  freq_table ≠ [] → σ !! default_codes = Some d →
  ∃ root codes fresh,
    build_huffman_tree freq_table = Ok root
    ∧ generate_codes_call root σ = (<[default_codes := codes]> σ, Ok default_codes)
    ∧ (∀ c : ascii, c ∈ freq_table.*1 →
        ∃ code, codes !! Some c = Some code ∧ code ≠ [] ∧ prefix_code.binary code
          ∧ length code ≤ Nat.max 1 (length freq_table - 1))
    ∧ (∀ τ, HuffmanAlgorithm2.generate_codes_call root τ
            = (τ ++ [fresh], Ok (length τ)))
    ∧ (∀ (k : option ascii) (code : str), fresh !! k = Some code →
        code ≠ [] ∧ prefix_code.binary code
        ∧ length code ≤ Nat.max 1 (length freq_table - 1)).
Proof.
  intros Hne Hd.
  destruct (build_huffman_tree_tree freq_table Hne) as (t & Hb & Hleaves & _).
  assert (length (leaves t) = length freq_table) as Hn
    by (by rewrite Hleaves, length_fmap).
  exists (node_of t), (fill_codes t [] d), (fill_codes t [] ∅).
  split_and!; [done|exact (codec.generate_codes_call_tree t σ d Hd)|
               |apply codec.generate_codes2_call_tree|].
  - intros c Hc. rewrite <-Hn. apply streaming.leaf_code_shape. by rewrite Hleaves.
  - intros k code Hk.
    assert (∃ c, k = Some c ∧ c ∈ leaves t) as (c & -> & Hc).
    { apply fill_codes_lookup_inv in Hk as [?|(c & p & -> & Hp & _)]; [done|].
      exists c. split; [done|]. by eapply elem_of_paths_leaves. }
    destruct (streaming.leaf_code_shape t ∅ c Hc) as (code' & Hk' & Hshape).
    rewrite <-Hn. by simplify_eq.
Qed.

Lemma codes_shape_witness :
  let freq_table := [("x"%char, 1%Z); ("y"%char, 1%Z)] in
  let d : dict :=
    {[Some "c"%char := lit "00"; Some "b"%char := lit "01"; Some "a"%char := lit "1"]} in
  freq_table ≠ [] ∧ ([d] : store) !! default_codes = Some d ∧
  ∃ root codes fresh,
    build_huffman_tree freq_table = Ok root
    ∧ generate_codes_call root [d] = (<[default_codes := codes]> [d], Ok default_codes)
    ∧ (∀ c : ascii, c ∈ freq_table.*1 →
        ∃ code, codes !! Some c = Some code ∧ code ≠ [] ∧ prefix_code.binary code
          ∧ length code ≤ Nat.max 1 (length freq_table - 1))
    ∧ (∀ τ, HuffmanAlgorithm2.generate_codes_call root τ
            = (τ ++ [fresh], Ok (length τ)))
    ∧ (∀ (k : option ascii) (code : str), fresh !! k = Some code →
        code ≠ [] ∧ prefix_code.binary code
        ∧ length code ≤ Nat.max 1 (length freq_table - 1)).
Proof.
  intros freq_table d. split; [discriminate|]. split; [reflexivity|].
  apply (codes_shape freq_table [d] d); [discriminate|reflexivity].
Defined.

(** X12 (what decoding emits). When [decode_text] returns on a tree, every
    symbol of the result is a leaf symbol of the tree and the result has at
    most one symbol per bit. *)
Theorem decode_output (t : tree) (bits out : str) :
  decode_text bits (node_of t) = Ok out →
  length out ≤ length bits ∧ ∀ c, c ∈ out → c ∈ leaves t.
Proof.
  intros Hrun. destruct t as [c f|f l r].
  - unfold decode_text in Hrun. simpl in Hrun. simplify_eq.
    rewrite length_replicate. split; [done|].
    intros c' [-> _]%elem_of_replicate. by left.
  - apply (streaming.decode_loop_output (Inner f l r) bits [] out (Inner f l r))
      in Hrun as [Hlen Hin]; [|done].
    split; [done|]. intros c [Hc|Hc]%Hin; [by apply elem_of_nil in Hc|done].
Qed.

Lemma decode_output_witness :
  let t := Inner 3 (Leaf "a" 1) (Inner 2 (Leaf "c" 1) (Leaf "b" 1)) in
  decode_text (lit "01011") (node_of t) = Ok (lit "acb")
  ∧ length (lit "acb") ≤ length (lit "01011")
  ∧ ∀ c, c ∈ lit "acb" → c ∈ leaves t.
Proof.
  intros t. split; [reflexivity|].
  apply (decode_output t (lit "01011") (lit "acb")). reflexivity.
Defined.

(** X13 (encoding loses nothing). For the tree of a frequency table and
    whatever the default dict held before the call, under the table
    [generate_codes] returns two texts over the symbols of the frequency
    table with the same encoding are the same text. In HuffmanAlgorithm2.py,
    where every call fills a dict of its own, this holds of any two texts
    the table encodes. *)
Theorem encode_injective (freq_table : list (ascii * Z)) (σ : store) (d : dict) :
  NoDup freq_table.*1 → freq_table ≠ [] → σ !! default_codes = Some d →
  ∃ root codes fresh,
    build_huffman_tree freq_table = Ok root
    ∧ generate_codes_call root σ = (<[default_codes := codes]> σ, Ok default_codes)
    ∧ (∀ s1 s2 encoded : str,
        (∀ c, c ∈ s1 → c ∈ freq_table.*1) → (∀ c, c ∈ s2 → c ∈ freq_table.*1) →
        encode_text s1 codes = Ok encoded → encode_text s2 codes = Ok encoded →
        s1 = s2)
    ∧ (∀ τ, HuffmanAlgorithm2.generate_codes_call root τ
            = (τ ++ [fresh], Ok (length τ)))
    ∧ (∀ s1 s2 encoded : str,
        encode_text s1 fresh = Ok encoded → encode_text s2 fresh = Ok encoded →
        s1 = s2).
Proof.
  intros Hnd Hne Hd.
  destruct (build_huffman_tree_tree freq_table Hne) as (t & Hb & Hleaves & _).
  assert (NoDup (leaves t)) as Hndt by (by rewrite Hleaves).
  assert (∀ (d' : dict) (s1 s2 encoded : str),
    (∀ c, c ∈ s1 → c ∈ leaves t) → (∀ c, c ∈ s2 → c ∈ leaves t) →
    encode_text s1 (fill_codes t [] d') = Ok encoded →
    encode_text s2 (fill_codes t [] d') = Ok encoded → s1 = s2) as Hinj.
  { intros d' s1 s2 encoded Hs1 Hs2 H1 H2.
    destruct (roundtrip.decode_encode_tree t d' s1 Hndt Hs1) as (e1 & He1 & Hd1).
    destruct (roundtrip.decode_encode_tree t d' s2 Hndt Hs2) as (e2 & He2 & Hd2).
    congruence. }
  exists (node_of t), (fill_codes t [] d), (fill_codes t [] ∅).
  split_and!; [done|exact (codec.generate_codes_call_tree t σ d Hd)|
               |apply codec.generate_codes2_call_tree|].
  - intros s1 s2 encoded Hs1 Hs2.
    apply Hinj; intros c Hc; rewrite Hleaves; auto.
  - intros s1 s2 encoded H1 H2. apply (Hinj ∅ s1 s2 encoded); [| |done..].
    + intros c Hc. apply streaming.fresh_table_key.
      by apply (streaming.encode_text_Ok_inv _ _ _ H1).
    + intros c Hc. apply streaming.fresh_table_key.
      by apply (streaming.encode_text_Ok_inv _ _ _ H2).
Qed.

Lemma encode_injective_witness :
  let freq_table := [("x"%char, 1%Z); ("y"%char, 1%Z)] in
  let d : dict :=
    {[Some "c"%char := lit "00"; Some "b"%char := lit "01"; Some "a"%char := lit "1"]} in
  NoDup freq_table.*1 ∧ freq_table ≠ [] ∧ ([d] : store) !! default_codes = Some d ∧
  ∃ root codes fresh,
    build_huffman_tree freq_table = Ok root
    ∧ generate_codes_call root [d] = (<[default_codes := codes]> [d], Ok default_codes)
    ∧ (∀ s1 s2 encoded : str,
        (∀ c, c ∈ s1 → c ∈ freq_table.*1) → (∀ c, c ∈ s2 → c ∈ freq_table.*1) →
        encode_text s1 codes = Ok encoded → encode_text s2 codes = Ok encoded →
        s1 = s2)
    ∧ (∀ τ, HuffmanAlgorithm2.generate_codes_call root τ
            = (τ ++ [fresh], Ok (length τ)))
    ∧ (∀ s1 s2 encoded : str,
        encode_text s1 fresh = Ok encoded → encode_text s2 fresh = Ok encoded →
        s1 = s2).
Proof.
  intros freq_table d.
  assert (NoDup freq_table.*1) as Hnd by (apply (bool_decide_unpack _); vm_compute; exact I).
  assert (freq_table ≠ []) as Hne by discriminate.
  split; [exact Hnd|]. split; [exact Hne|]. split; [reflexivity|].
  exact (encode_injective freq_table [d] d Hnd Hne eq_refl).
Defined.

(** X16 (two symbols). For a table of two symbols the tree has the two
    leaves under one root; the left leaf, coded ['0'], is the first symbol
    when its count is strictly smaller and the second symbol otherwise, so
    on a tie the second symbol of the table is coded ['0']. *)
Theorem two_symbols (a b : ascii) (fa fb : Z) :
  build_huffman_tree [(a, fa); (b, fb)]
  = Ok (if (fa <? fb)%Z
        then node_of (Inner (fa + fb) (Leaf a fa) (Leaf b fb))
        else node_of (Inner (fb + fa) (Leaf b fb) (Leaf a fa)))
  ∧ ∀ root, build_huffman_tree [(a, fa); (b, fb)] = Ok root →
      generate_codes_call root initial_store
      = ([if (fa <? fb)%Z
          then <[Some b := lit "1"]> (<[Some a := lit "0"]> ∅)
          else <[Some a := lit "1"]> (<[Some b := lit "0"]> ∅)],
         Ok default_codes).
Proof.
  assert (build_huffman_tree [(a, fa); (b, fb)]
          = Ok (if (fa <? fb)%Z
                then node_of (Inner (fa + fb) (Leaf a fa) (Leaf b fb))
                else node_of (Inner (fb + fa) (Leaf b fb) (Leaf a fa)))) as Hb.
  { unfold build_huffman_tree, heapq.heapify. simpl length.
    change (2 `div` 2) with 1. unfold heapq.heapify_from, heapq._siftup.
    simpl length. unfold getitem at 1. simpl lookup.
    cbn [mbind Result_bind]. rewrite heapq_perm.siftup_loop_S.
    change (2 * 0 + 1 <? 2) with true. change (2 * 0 + 1 + 1 <? 2) with false.
    cbv iota. cbn [mbind Result_bind]. unfold getitem at 1. simpl lookup.
    cbn [mbind Result_bind]. unfold setitem at 1. simpl.
    unfold heapq._siftdown, getitem, setitem. simpl.
    unfold Node_lt at 1. simpl freq.
    destruct (fa <? fb)%Z eqn:Hlt; simpl; unfold setitem; simpl.
    - reflexivity.
    - reflexivity. }
  split; [exact Hb|].
  intros root Hroot. rewrite Hb in Hroot. apply Ok_inj in Hroot as <-.
  destruct (fa <? fb)%Z;
    apply (codec.generate_codes_call_tree (Inner _ (Leaf _ _) (Leaf _ _)) initial_store ∅ eq_refl).
Qed.

(** X17 (the assertion of [test_huffman_on_file]). In HuffmanAlgorithm2.py,
    for every non-empty text and whatever dicts earlier calls left behind,
    the tree is built, the table is generated in a dict of its own, the text
    is encoded and [decode_text] gives the text back, so [text == decoded]
    holds. *)
Theorem round_trip2 (text : str) (σ : store) :
  text ≠ [] →
  ∃ root codes encoded,
    HuffmanAlgorithm2.build_huffman_tree (HuffmanAlgorithm2.build_frequency_table text)
      = Ok root
    ∧ HuffmanAlgorithm2.generate_codes_call root σ = (σ ++ [codes], Ok (length σ))
    ∧ HuffmanAlgorithm2.encode_text text codes = Ok encoded
    ∧ HuffmanAlgorithm2.decode_text encoded root = Ok text.
Proof.
  intros Htext.
  change HuffmanAlgorithm2.build_huffman_tree with build_huffman_tree.
  change HuffmanAlgorithm2.build_frequency_table with build_frequency_table.
  change HuffmanAlgorithm2.encode_text with encode_text.
  change HuffmanAlgorithm2.decode_text with decode_text.
  unfold build_frequency_table.
  destruct (build_huffman_tree_tree (Counter text)) as (t & Hbuild & Hleaves & _).
  { by apply Counter_nonempty. }
  destruct (roundtrip.decode_encode_tree t ∅ text) as (encoded & Henc & Hdec).
  { rewrite Hleaves. apply Counter_NoDup. }
  { intros c Hc. rewrite Hleaves. by apply elem_of_Counter. }
  exists (node_of t), (fill_codes t [] ∅), encoded.
  split_and!; [done|apply codec.generate_codes2_call_tree|done..].
Qed.

Lemma round_trip2_witness :
  lit "source_code.py" ≠ [] ∧
  ∃ root codes encoded,
    HuffmanAlgorithm2.build_huffman_tree
      (HuffmanAlgorithm2.build_frequency_table (lit "source_code.py")) = Ok root
    ∧ HuffmanAlgorithm2.generate_codes_call root [∅] = ([∅] ++ [codes], Ok (length [(∅ : dict)]))
    ∧ HuffmanAlgorithm2.encode_text (lit "source_code.py") codes = Ok encoded
    ∧ HuffmanAlgorithm2.decode_text encoded root = Ok (lit "source_code.py").
Proof.
  split; [discriminate|].
  apply (round_trip2 (lit "source_code.py") [∅]). discriminate.
Defined.

(** X14 (never worse than a fixed-length code). If the text has at most
    [2^k] distinct symbols, with [k] at least 1, its encoding under the
    generated table has at least one and at most [k] bits per symbol of the
    text. *)
Theorem fixed_length_bound (text : str) (k : nat) :
  text ≠ [] → 1 ≤ k → length (build_frequency_table text) ≤ 2 ^ k →
  ∃ root codes encoded,
    build_huffman_tree (build_frequency_table text) = Ok root
    ∧ generate_codes_call root initial_store = ([codes], Ok default_codes)
    ∧ encode_text text codes = Ok encoded
    ∧ length text ≤ length encoded ≤ k * length text.
Proof.
  intros Htext Hk Hlen. unfold build_frequency_table in *.
  destruct (build.build_huffman_tree_run (Counter text)) as (t & ts & Hbuild & Hts & Hrun).
  { by apply Counter_nonempty. }
  assert (leaves t ≡ₚ (Counter text).*1) as Hleaves.
  { by rewrite (huffman_run_leaves _ _ Hrun), Hts, leaves_leaf_of. }
  destruct (roundtrip.decode_encode_tree t ∅ text) as (encoded & Henc & _).
  { rewrite Hleaves. apply Counter_NoDup. }
  { intros c Hc. rewrite Hleaves. by apply elem_of_Counter. }
  exists (node_of t), (fill_codes t [] ∅), encoded.
  split; [done|].
  split; [exact (codec.generate_codes_call_tree t initial_store ∅ eq_refl)|].
  split; [done|]. split.
  { apply Nat2Z.inj_le. rewrite (encode_text_length _ _ _ Henc).
    apply total_ge_length. intros c Hc.
    destruct (roundtrip.fill_codes_lookup t ∅ c) as (code & -> & Hcode & _).
    - rewrite Hleaves. apply Counter_NoDup.
    - rewrite Hleaves. by apply elem_of_Counter.
    - simpl. destruct code; [done|simpl; lia]. }
  destruct (huffman_run_shape _ _ Hrun) as [->|Ht].
  - apply Permutation_singleton_l in Hts.
    destruct (Counter text) as [|[c f] [|??]] eqn:Htbl; simplify_eq/=.
    destruct (roundtrip.encode_single c "0" (<[Some c := lit "0"]> ∅) text) as [He _].
    { by rewrite lookup_insert_eq. }
    { intros c' Hc'%elem_of_Counter. rewrite Htbl in Hc'. simpl in Hc'.
      by apply list_elem_of_singleton in Hc'. }
    assert (Ok encoded = Ok (replicate (length text) "0"%char)) as Heq
      by (rewrite <-Henc; exact He).
    apply Ok_inj in Heq as ->. rewrite length_replicate. nia.
  - destruct (bounds.fixed_assignment (Counter text).*2 k) as (A & HA1 & HA2 & HA3).
    { by rewrite length_fmap. }
    destruct (huffman_run_optimal (Counter text) ts t A) as [Hc Hopt];
      [done|done|apply Counter_pos|by rewrite HA1|done|].
    apply Nat2Z.inj_le.
    rewrite (huffman_encoded_length text ts t ∅ encoded) by done.
    rewrite HA3 in Hopt.
    rewrite <-counting.weighted_sum_ones, Counter_sum, counting.total_ones in Hopt.
    lia.
Qed.

Lemma fixed_length_bound_witness :
  let text := lit "Huffman Coding" in
  text ≠ [] ∧ 1 ≤ 4 ∧ length (build_frequency_table text) ≤ 2 ^ 4 ∧
  ∃ root codes encoded,
    build_huffman_tree (build_frequency_table text) = Ok root
    ∧ generate_codes_call root initial_store = ([codes], Ok default_codes)
    ∧ encode_text text codes = Ok encoded
    ∧ length text ≤ length encoded ≤ 4 * length text.
Proof.
  intros text.
  assert (length (build_frequency_table text) ≤ 2 ^ 4) as Hlen by (vm_compute; lia).
  split; [discriminate|]. split; [lia|]. split; [exact Hlen|].
  apply (fixed_length_bound text 4); [discriminate|lia|exact Hlen].
Defined.

(** X15 (the more frequent, the shorter). For a frequency table of positive
    counts, in the generated table a symbol with a strictly larger count
    never has a longer code than a symbol with a smaller count. *)
Theorem frequent_symbols_shorter (freq_table : list (ascii * Z)) :
  NoDup freq_table.*1 → Forall (λ e, (0 < e.2)%Z) freq_table → freq_table ≠ [] →
  ∃ root codes,
    build_huffman_tree freq_table = Ok root
    ∧ generate_codes_call root initial_store = ([codes], Ok default_codes)
    ∧ ∀ (a b : ascii) (fa fb : Z) (ca cb : str),
        (a, fa) ∈ freq_table → (b, fb) ∈ freq_table → (fa < fb)%Z →
        codes !! Some a = Some ca → codes !! Some b = Some cb →
        length cb ≤ length ca.
Proof.
  intros Hnd Hpos Hne.
  destruct (build.build_huffman_tree_run freq_table Hne) as (t & ts & Hb & Hts & Hrun).
  exists (node_of t), (fill_codes t [] ∅).
  split_and!; [done|exact (codec.generate_codes_call_tree t initial_store ∅ eq_refl)|].
  intros a b fa fb ca cb Ha Hbin Hlt Hca Hcb.
  by apply (bounds.larger_count_shorter freq_table ts t a b fa fb ca cb).
Qed.

Lemma frequent_symbols_shorter_witness :
  let freq_table := [("a"%char, 5%Z); ("b"%char, 2%Z); ("c"%char, 1%Z)] in
  NoDup freq_table.*1 ∧ Forall (λ e, (0 < e.2)%Z) freq_table ∧ freq_table ≠ [] ∧
  ∃ root codes,
    build_huffman_tree freq_table = Ok root
    ∧ generate_codes_call root initial_store = ([codes], Ok default_codes)
    ∧ ∀ (a b : ascii) (fa fb : Z) (ca cb : str),
        (a, fa) ∈ freq_table → (b, fb) ∈ freq_table → (fa < fb)%Z →
        codes !! Some a = Some ca → codes !! Some b = Some cb →
        length cb ≤ length ca.
Proof.
  intros freq_table.
  assert (NoDup freq_table.*1) as Hnd by (apply (bool_decide_unpack _); vm_compute; exact I).
  assert (Forall (λ e, (0 < e.2)%Z) freq_table) as Hpos by (repeat constructor).
  assert (freq_table ≠ []) as Hne by discriminate.
  split; [exact Hnd|]. split; [exact Hpos|]. split; [exact Hne|].
  exact (frequent_symbols_shorter freq_table Hnd Hpos Hne).
Defined.

(** X18 (no bit pattern is wasted). For a table of [n] symbols, [n] at least
    2, the code lengths [l] of the generated table satisfy Kraft's equality:
    the sum of [2^(n - l)] over the symbols is [2^n]. *)
Theorem kraft_equality (freq_table : list (ascii * Z)) :
  NoDup freq_table.*1 → 2 ≤ length freq_table →
  ∃ root codes,
    build_huffman_tree freq_table = Ok root
    ∧ generate_codes_call root initial_store = ([codes], Ok default_codes)
    ∧ optimal.Zsum
        ((λ e, 2 ^ Z.of_nat (length freq_table
                             - length (default [] (codes !! Some e.1))))%Z
           <$> freq_table)
      = (2 ^ Z.of_nat (length freq_table))%Z.
Proof.
  intros Hnd Hlen.
  destruct (shape.build_huffman_tree_shape freq_table) as (t & Hb & Hent & _ & _).
  { intros ->. simpl in Hlen. lia. }
  assert (leaves t ≡ₚ freq_table.*1) as Hleaves by (by rewrite <-entries_leaves, Hent).
  assert (length (leaves t) = length freq_table) as Hn
    by (by rewrite Hleaves, length_fmap).
  assert (is_inner t) as Ht.
  { destruct t; [simpl in Hn; lia|done]. }
  exists (node_of t), (fill_codes t [] ∅).
  split_and!; [done|exact (codec.generate_codes_call_tree t initial_store ∅ eq_refl)|].
  revert Hn. generalize (length freq_table) as n. intros n Hn.
  rewrite <-Hent.
  rewrite (kraft.kraft_entries t
             (λ c, length (default [] (fill_codes t [] ∅ !! Some c))) 0 n).
  - by rewrite Nat.sub_0_r.
  - intros c p Hp. rewrite (fill_codes_path t [] ∅ c p); [|by rewrite Hleaves|done|].
    + destruct (streaming.paths_binary_bound t c p Hp) as [_ Hlt]. simpl. lia.
    + simpl. by eapply paths_inner_nonempty.
Qed.

Lemma kraft_equality_witness :
  let freq_table := [("a"%char, 5%Z); ("b"%char, 2%Z); ("c"%char, 1%Z)] in
  NoDup freq_table.*1 ∧ 2 ≤ length freq_table ∧
  ∃ root codes,
    build_huffman_tree freq_table = Ok root
    ∧ generate_codes_call root initial_store = ([codes], Ok default_codes)
    ∧ optimal.Zsum
        ((λ e, 2 ^ Z.of_nat (length freq_table
                             - length (default [] (codes !! Some e.1))))%Z
           <$> freq_table)
      = (2 ^ Z.of_nat (length freq_table))%Z.
Proof.
  intros freq_table.
  assert (NoDup freq_table.*1) as Hnd by (apply (bool_decide_unpack _); vm_compute; exact I).
  assert (2 ≤ length freq_table) as Hlen by (simpl; lia).
  split; [exact Hnd|]. split; [exact Hlen|].
  exact (kraft_equality freq_table Hnd Hlen).
Defined.

(** X19 (the order of the table does not change the size). Building the tree
    from the frequency table of a text with its entries in any other order
    may give other codes, but the text encodes to the same number of bits. *)
Theorem order_independent_size (text : str) (freq_table : list (ascii * Z)) :
  text ≠ [] → freq_table ≡ₚ build_frequency_table text →
  ∃ root codes encoded root' codes' encoded',
    build_huffman_tree (build_frequency_table text) = Ok root
    ∧ generate_codes_call root initial_store = ([codes], Ok default_codes)
    ∧ encode_text text codes = Ok encoded
    ∧ build_huffman_tree freq_table = Ok root'
    ∧ generate_codes_call root' initial_store = ([codes'], Ok default_codes)
    ∧ encode_text text codes' = Ok encoded'
    ∧ length encoded = length encoded'.
Proof.
  intros Htext Hperm. unfold build_frequency_table in *.
  destruct (build.build_huffman_tree_run (Counter text)) as (t & ts & Hbuild & Hts & Hrun).
  { by apply Counter_nonempty. }
  assert (leaves t ≡ₚ (Counter text).*1) as Hleaves.
  { by rewrite (huffman_run_leaves _ _ Hrun), Hts, leaves_leaf_of. }
  destruct (roundtrip.decode_encode_tree t ∅ text) as (encoded & Henc & _).
  { rewrite Hleaves. apply Counter_NoDup. }
  { intros c Hc. rewrite Hleaves. by apply elem_of_Counter. }
  pose proof (codec.generate_codes_call_tree t initial_store ∅ eq_refl) as Hgen.
  destruct (decide (2 ≤ length (Counter text))) as [Hlen|Hlen].
  - destruct (build.build_huffman_tree_run freq_table) as (t' & ts' & Hbuild' & Hts' & Hrun').
    { intros ->. apply Permutation_nil in Hperm. rewrite Hperm in Hlen. simpl in Hlen. lia. }
    rewrite Hperm in Hts'.
    assert (leaves t' ≡ₚ (Counter text).*1) as Hleaves'.
    { by rewrite (huffman_run_leaves _ _ Hrun'), Hts', leaves_leaf_of. }
    destruct (roundtrip.decode_encode_tree t' ∅ text) as (encoded' & Henc' & _).
    { rewrite Hleaves'. apply Counter_NoDup. }
    { intros c Hc. rewrite Hleaves'. by apply elem_of_Counter. }
    exists (node_of t), (fill_codes t [] ∅), encoded,
           (node_of t'), (fill_codes t' [] ∅), encoded'.
    split_and!; [done|done|done|done
                |exact (codec.generate_codes_call_tree t' initial_store ∅ eq_refl)|done|].
    assert (is_inner t) as Ht.
    { destruct (huffman_run_shape _ _ Hrun) as [->|]; [|done].
      apply Permutation_length in Hts. rewrite length_fmap in Hts. simpl in Hts. lia. }
    assert (is_inner t') as Ht'.
    { destruct (huffman_run_shape _ _ Hrun') as [->|]; [|done].
      apply Permutation_length in Hts'. rewrite length_fmap in Hts'. simpl in Hts'. lia. }
    destruct (huffman_run_hcost ts t Hrun) as [Hc _].
    { rewrite Hts. apply leaf_of_consistent. }
    destruct (huffman_run_hcost ts' t' Hrun') as [Hc' _].
    { rewrite Hts'. apply leaf_of_consistent. }
    apply Nat2Z.inj.
    rewrite (huffman_encoded_length text ts t ∅ encoded) by done.
    rewrite (huffman_encoded_length text ts' t' ∅ encoded') by done.
    pose proof (bounds.run_cost_le (Counter text) ts ts' t t'
                  (Counter_NoDup text) (Counter_pos text) Hts Hrun Hts' Hrun' Ht').
    pose proof (bounds.run_cost_le (Counter text) ts' ts t' t
                  (Counter_NoDup text) (Counter_pos text) Hts' Hrun' Hts Hrun Ht).
    lia.
  - assert (freq_table = Counter text) as ->.
    { destruct (Counter text) as [|e [|e' rest]]; simpl in Hlen; [| |lia].
      - by apply Permutation_nil_r in Hperm.
      - by apply Permutation_singleton_r in Hperm. }
    by exists (node_of t), (fill_codes t [] ∅), encoded,
              (node_of t), (fill_codes t [] ∅), encoded.
Qed.

Lemma order_independent_size_witness :
  let text := lit "abracadabra" in
  let freq_table := reverse (build_frequency_table text) in
  text ≠ [] ∧ freq_table ≡ₚ build_frequency_table text ∧
  ∃ root codes encoded root' codes' encoded',
    build_huffman_tree (build_frequency_table text) = Ok root
    ∧ generate_codes_call root initial_store = ([codes], Ok default_codes)
    ∧ encode_text text codes = Ok encoded
    ∧ build_huffman_tree freq_table = Ok root'
    ∧ generate_codes_call root' initial_store = ([codes'], Ok default_codes)
    ∧ encode_text text codes' = Ok encoded'
    ∧ length encoded = length encoded'.
Proof.
  intros text freq_table.
  assert (freq_table ≡ₚ build_frequency_table text) as Hperm by apply reverse_Permutation.
  split; [discriminate|]. split; [exact Hperm|].
  apply (order_independent_size text freq_table); [discriminate|exact Hperm].
Defined.

(** X20 (prefix freedom of the codes of the tree). For the tree of a
    non-empty frequency table and whatever the default dict held before the
    call, in the table [generate_codes] returns the code of a symbol of the
    frequency table is never a prefix of the code of another symbol of the
    frequency table. In HuffmanAlgorithm2.py, where every call fills a dict
    of its own, no code of the returned table is a prefix of the code of
    another symbol, so none is a prefix of a different code string; the
    first call of HuffmanAlgorithm.py returns that same table. *)
Theorem prefix_freedom (freq_table : list (ascii * Z)) (σ : store) (d : dict) :
  NoDup freq_table.*1 → freq_table ≠ [] → σ !! default_codes = Some d →
  ∃ root codes fresh,
    build_huffman_tree freq_table = Ok root
    ∧ generate_codes_call root σ = (<[default_codes := codes]> σ, Ok default_codes)
    ∧ (∀ (c1 c2 : ascii) (code1 code2 : str),
        c1 ∈ freq_table.*1 → c2 ∈ freq_table.*1 → c1 ≠ c2 →
        codes !! Some c1 = Some code1 → codes !! Some c2 = Some code2 →
        ¬ code1 `prefix_of` code2)
    ∧ (∀ τ, HuffmanAlgorithm2.generate_codes_call root τ
            = (τ ++ [fresh], Ok (length τ)))
    ∧ (∀ (k1 k2 : option ascii) (code1 code2 : str),
        fresh !! k1 = Some code1 → fresh !! k2 = Some code2 →
        k1 ≠ k2 ∨ code1 ≠ code2 → ¬ code1 `prefix_of` code2)
    ∧ (d = ∅ → codes = fresh).
Proof.
  intros Hnd Hne Hd.
  destruct (build_huffman_tree_tree freq_table Hne) as (t & Hbuild & Hleaves & _).
  assert (NoDup (leaves t)) as Hndt by (by rewrite Hleaves).
  exists (node_of t), (fill_codes t [] d), (fill_codes t [] ∅).
  split_and!; [done|exact (codec.generate_codes_call_tree t σ d Hd)|
               |apply codec.generate_codes2_call_tree| |by intros ->].
  - intros c1 c2 code1 code2 Hc1 Hc2 Hdiff H1 H2.
    destruct (tables.fill_codes_leaf t [] d c1) as (p1 & Hp1 & Hl1); [by rewrite Hleaves|].
    destruct (tables.fill_codes_leaf t [] d c2) as (p2 & Hp2 & Hl2); [by rewrite Hleaves|].
    rewrite H1 in Hl1. rewrite H2 in Hl2. simplify_eq/=.
    destruct t as [c0 f|f l r].
    + simpl in Hp1, Hp2. apply list_elem_of_singleton in Hp1, Hp2. congruence.
    + pose proof (paths_inner_nonempty (Inner f l r) _ _ I Hp1).
      pose proof (paths_inner_nonempty (Inner f l r) _ _ I Hp2).
      rewrite !decide_False by done.
      by apply (paths_prefix_free (Inner f l r) c1 p1 c2 p2).
  - intros k1 k2 code1 code2 H1 H2 Hdiff.
    apply (fill_codes_prefix_free t k1 k2); [done..|].
    destruct Hdiff as [?|Hc]; [done|]. intros ->. congruence.
Qed.

Lemma prefix_freedom_witness :
  let freq_table := [("c"%char, 1%Z); ("d"%char, 2%Z); ("e"%char, 1%Z)] in
  let d : dict := {[Some "b"%char := lit "0"; Some "a"%char := lit "1"]} in
  NoDup freq_table.*1 ∧ freq_table ≠ [] ∧ ([d] : store) !! default_codes = Some d ∧
  ∃ root codes fresh,
    build_huffman_tree freq_table = Ok root
    ∧ generate_codes_call root [d] = (<[default_codes := codes]> [d], Ok default_codes)
    ∧ (∀ (c1 c2 : ascii) (code1 code2 : str),
        c1 ∈ freq_table.*1 → c2 ∈ freq_table.*1 → c1 ≠ c2 →
        codes !! Some c1 = Some code1 → codes !! Some c2 = Some code2 →
        ¬ code1 `prefix_of` code2)
    ∧ (∀ τ, HuffmanAlgorithm2.generate_codes_call root τ
            = (τ ++ [fresh], Ok (length τ)))
    ∧ (∀ (k1 k2 : option ascii) (code1 code2 : str),
        fresh !! k1 = Some code1 → fresh !! k2 = Some code2 →
        k1 ≠ k2 ∨ code1 ≠ code2 → ¬ code1 `prefix_of` code2)
    ∧ (d = ∅ → codes = fresh).
Proof.
  intros freq_table d.
  assert (NoDup freq_table.*1) as Hnd by (apply (bool_decide_unpack _); vm_compute; exact I).
  assert (freq_table ≠ []) as Hne by discriminate.
  split; [exact Hnd|]. split; [exact Hne|]. split; [reflexivity|].
  exact (prefix_freedom freq_table [d] d Hnd Hne eq_refl).
Defined.

End extras.
